(** * bbrl_examples: actors, training-loop fragments and the execution core

    A shallow embedding of
    - [bbrl_examples/models/stochastic_actors.py] (the actor agents),
    - the advantage and mask fragments of [algos/a2c/a2c.py],
      [algos/ppo/ppo_basic.py] and [run_launcher/algos/fqi_tests.py],
    together with models of the library pieces those files call
    (workspace, composite and temporal agents, the environment driver and
    the advantage estimator), which live in the [bbrl] package and are
    described by the specification only. *)

From Stdlib Require Import QArith Lqa.
From stdpp Require Import gmap strings list fin_maps.

Set Default Proof Using "Type".

(** ** Errors and results *)

(** The Python exceptions the modelled code can raise. *)
Inductive error : Type :=
| MissingEntry     (* workspace read of an unset (channel, time) *)
| GapError         (* workspace write that skips ahead of the channel *)
| ShapeError       (* tensor shapes do not agree *)
| TypeError        (* a tensor of the wrong dtype or rank *)
| IndexError       (* index out of range *)
| ValueError       (* torch.distributions argument validation *)
| AssertionError.  (* a failed [assert] *)

Inductive result (A : Type) : Type :=
| Ok (a : A)
| Err (e : error).
Arguments Ok {A} a.
Arguments Err {A} e.

Definition rbind {A B} (r : result A) (k : A → result B) : result B :=
  match r with
  | Ok a => k a
  | Err e => Err e
  end.

Definition is_ok {A} (r : result A) : bool :=
  match r with Ok _ => true | Err _ => false end.

(** ** The numerical library

    [torch] is an external collaborator: its scalar type, random generator
    and numerical kernels are an interface.  Scalar operations act on one
    element; sampling and argument validation act on a whole batch, as the
    corresponding torch calls do. *)
Class Torch : Type := {
  float : Type;
  generator : Type;
  (* scalars *)
  of_Q : Q → float;
  isnan : float → bool;
  t_lt : float → float → bool;
  t_add : float → float → float;
  t_log : float → float;
  t_exp : float → float;
  t_softplus : float → float;
  t_clamp : Q → Q → float → float;
  t_int : float → Z;
  (* reductions over the last dimension *)
  t_sum : list float → float;
  t_softmax : list float → list float;
  t_argmax : list float → Z;
  (* torch.distributions.Categorical *)
  categorical_valid : list (list float) → bool;
  categorical_entropy : list float → float;
  categorical_sample : generator → list (list float) → list Z * generator;
  (* torch.distributions.Bernoulli *)
  bernoulli_valid : list (list float) → bool;
  bernoulli_entropy : float → float;
  bernoulli_sample : generator → list (list float) → list (list float) * generator;
  bernoulli_log_prob : float → float → float;
  (* torch.distributions.Normal, elementwise on (loc, scale) *)
  normal_valid : list (list (float * float)) → bool;
  normal_entropy : float * float → float;
  normal_sample :
    generator → list (list (float * float)) → list (list float) * generator;
  normal_log_prob : float * float → float → float;
  (* bbrl.utils.distributions.SquashedDiagGaussianDistribution, per row *)
  squashed_valid : list (list (float * float)) → bool;
  squashed_sample :
    generator → list (list (float * float)) → list (list float) * generator;
  squashed_mode : list (float * float) → list float;
  squashed_log_prob : list (float * float) → list float → float;
}.

(** ** Tensors

    A channel holds batched tensors of rank one ([batch]) or two
    ([batch, features]) and of dtype bool, int or float. *)
Inductive tensor `{Torch} : Type :=
| TBool (v : list bool)
| TInt (v : list Z)
| TFloat (v : list float)
| TBool2 (v : list (list bool))
| TInt2 (v : list (list Z))
| TFloat2 (v : list (list float)).

Section Tensors.
Context `{Torch}.

Definition width {A} (v : list (list A)) : nat :=
  match v with
  | [] => 0
  | row :: _ => length row
  end.

Definition map2d {A B} (f : A → B) (v : list (list A)) : list (list B) :=
  map (map f) v.

Definition shape (x : tensor) : list nat :=
  match x with
  | TBool v => [length v]
  | TInt v => [length v]
  | TFloat v => [length v]
  | TBool2 v => [length v; width v]
  | TInt2 v => [length v; width v]
  | TFloat2 v => [length v; width v]
  end.

Definition same_shape (x y : tensor) : bool :=
  bool_decide (shape x = shape y).

(** Elementwise combination of two equally long lists. *)
Definition zip_exact {A B C} (f : A → B → C) (l : list A) (k : list B)
  : result (list C) :=
  if decide (length l = length k) then Ok (zip_with f l k)
  else Err ShapeError.

Fixpoint rmap {A B} (f : A → result B) (l : list A) : result (list B) :=
  match l with
  | [] => Ok []
  | x :: l' =>
      rbind (f x) (λ y, rbind (rmap f l') (λ ys, Ok (y :: ys)))
  end.

(** [x.squeeze(-1)] on a [batch, 1] tensor. *)
Definition squeeze_last {A} (v : list (list A)) : result (list A) :=
  rmap (λ row, match row with [a] => Ok a | _ => Err ShapeError end) v.

(** [row[a]] with Python's wrap-around of negative indices. *)
Definition index_row {A} (row : list A) (a : Z) : result A :=
  let n := Z.of_nat (length row) in
  let i := if (a <? 0)%Z then (n + a)%Z else a in
  if ((0 <=? i) && (i <? n))%Z
  then match row !! Z.to_nat i with
       | Some x => Ok x
       | None => Err IndexError
       end
  else Err IndexError.

(** [probs[torch.arange(probs.size()[0]), action]] *)
Definition gather (probs : list (list float)) (action : list Z)
  : result (list float) :=
  rbind (zip_exact index_row probs action) (rmap id).

(** The dtype and rank a call expects of a tensor it reads; a tensor of
    another kind is reported as TypeError. *)
Definition as_float2 (x : tensor) : result (list (list float)) :=
  match x with TFloat2 v => Ok v | _ => Err TypeError end.

Definition as_int (x : tensor) : result (list Z) :=
  match x with TInt v => Ok v | _ => Err TypeError end.

Definition b2f (b : bool) : float := of_Q (if b then 1 else 0)%Q.
Definition z2f (z : Z) : float := of_Q (inject_Z z).

(** [action.float()] for the rank-one actions an actor stores. *)
Definition to_float (x : tensor) : result (list float) :=
  match x with
  | TBool v => Ok (b2f <$> v)
  | TInt v => Ok (z2f <$> v)
  | TFloat v => Ok v
  | _ => Err TypeError
  end.

Definition has_nan (v : list (list float)) : bool :=
  existsb (existsb isnan) v.

Definition tensor_has_nan (x : tensor) : bool :=
  match x with
  | TFloat v => existsb isnan v
  | TFloat2 v => has_nan v
  | _ => false
  end.
End Tensors.

(** ** Workspace *)

(** Modelled from the spec: the [bbrl.workspace.Workspace] class is not part
    of the sources.  A workspace maps a channel name to the ordered sequence
    of the tensors written at times [0, 1, ...]. *)
Abbreviation workspace := (gmap string (list tensor)).

Section Workspace.
Context `{Torch}.

(** Modelled from the spec: the sequence a channel holds, empty for a
    channel that was never written. *)
Definition channel (w : workspace) (c : string) : list tensor :=
  default [] (w !! c).

(** Modelled from the spec: [get(channel, t)] returns the tensor and fails
    with a missing-entry error if it is unset. *)
Definition ws_get (w : workspace) (c : string) (t : nat) : result tensor :=
  match channel w c !! t with
  | Some x => Ok x
  | None => Err MissingEntry
  end.

(** Modelled from the spec: [set(channel, t, tensor)] writes the tensor at
    time [t]; it fails if [t] skips ahead of the channel's current length
    or if the shape differs from a previously written entry. *)
Definition ws_set (w : workspace) (c : string) (t : nat) (x : tensor)
  : result workspace :=
  let l := channel w c in
  if decide (length l < t) then Err GapError
  else if negb (forallb (same_shape x) l) then Err ShapeError
  else if decide (t = length l) then Ok (<[c := l ++ [x] ]> w)
  else Ok (<[c := <[t := x]> l]> w).

(** Modelled from the spec: [copy_n_last_steps(n)] replaces the content by
    the last [n] time steps of every channel, re-indexed from 0. *)
Definition copy_n_last_steps (n : nat) (w : workspace) : workspace :=
  (λ l : list tensor, drop (length l - n) l) <$> w.

(** Modelled from the spec: the number of time steps a channel holds. *)
Definition time_size (w : workspace) (c : string) : nat :=
  length (channel w c).
End Workspace.

(** ** Agents run in a state monad with exceptions

    The state an agent call can touch is the workspace and the global torch
    generator.  A raised exception keeps the state reached so far, as a
    Python exception leaves the mutated workspace behind. *)
Section Monad.
Context `{Torch}.

Definition state : Type := workspace * generator.

Definition M (A : Type) : Type := state → result A * state.

Definition ret {A} (a : A) : M A := λ s, (Ok a, s).

Definition bind {A B} (m : M A) (k : A → M B) : M B :=
  λ s, match m s with
       | (Ok a, s') => k a s'
       | (Err e, s') => (Err e, s')
       end.

Definition raise {A} (e : error) : M A := λ s, (Err e, s).

Definition lift {A} (r : result A) : M A :=
  λ s, (r, s).

(** [self.get((name, t))] *)
Definition get (c : string) (t : nat) : M tensor :=
  λ s, (ws_get s.1 c t, s).

(** [self.set((name, t), value)] *)
Definition set (c : string) (t : nat) (x : tensor) : M unit :=
  λ s, match ws_set s.1 c t x with
       | Ok w => (Ok tt, (w, s.2))
       | Err e => (Err e, s)
       end.

(** Draw from the global generator. *)
Definition draw {A} (f : generator → A * generator) : M A :=
  λ s, let '(a, g) := f s.2 in (Ok a, (s.1, g)).

Definition when (b : bool) (m : M unit) : M unit :=
  if b then m else ret tt.
End Monad.

Notation "x <- m ;; k" := (bind m (λ x, k))
  (at level 100, m at next level, right associativity, only parsing).
Notation "m ;;; k" := (bind m (λ _, k))
  (at level 100, right associativity, only parsing).

(** ** Options of an agent call

    The keyword arguments a temporal agent threads to every [forward]:
    the three recognised flags and the optional [observation] entry of
    [kwargs].  A call site that omits a flag passes the default of the
    callee's signature. *)
Record options `{Torch} : Type := {
  stochastic : bool;
  predict_proba : bool;
  compute_entropy : bool;
  observation : option tensor;
}.

(** ** torch.distributions *)
Section Distributions.
Context `{Torch}.

(** [Categorical(probs)]; the constructor validates its argument. *)
Definition Categorical (probs : list (list float))
  : result (list (list float)) :=
  if categorical_valid probs then Ok probs else Err ValueError.

(** [Bernoulli(mean)] *)
Definition Bernoulli (mean : list (list float))
  : result (list (list float)) :=
  if bernoulli_valid mean then Ok mean else Err ValueError.

(** Elementwise pairing of a location with a scale of the same shape. *)
Definition pair_up (loc scale : list (list float))
  : result (list (list (float * float))) :=
  rbind (zip_exact (zip_exact pair) loc scale) (rmap id).

(** Broadcasting of a scale against a [batch, features] location.  A
    scale row is used for every batch row; a one-element row is repeated
    along the features.  Other combinations are reported as ShapeError. *)
Definition expand_row (row : list float) (n : nat) : result (list float) :=
  if decide (length row = n) then Ok row
  else match row with
       | [s] => Ok (replicate n s)
       | _ => Err ShapeError
       end.

Definition broadcast_vec (loc : list (list float)) (v : list float)
  : result (list (list float)) :=
  rmap (λ r, expand_row v (length r)) loc.

Definition broadcast_mat (loc scale : list (list float))
  : result (list (list float)) :=
  match scale with
  | [v] => broadcast_vec loc v
  | _ => rbind (zip_exact (λ r v, expand_row v (length r)) loc scale)
               (rmap id)
  end.

(** [Normal(loc, scale)] once the scale is broadcast. *)
Definition Normal (loc scale : list (list float))
  : result (list (list (float * float))) :=
  rbind (pair_up loc scale)
        (λ d, if normal_valid d then Ok d else Err ValueError).

(** [Normal.entropy()] and [Normal.log_prob(x)], elementwise. *)
Definition Normal_entropy (d : list (list (float * float)))
  : list (list float) :=
  map2d normal_entropy d.

Definition Normal_log_prob (d : list (list (float * float)))
                           (x : list (list float))
  : result (list (list float)) :=
  rbind (zip_exact (zip_exact normal_log_prob) d x) (rmap id).

(** [Independent(Normal(...), 1)] sums the last dimension. *)
Definition Independent_entropy (d : list (list (float * float)))
  : list float :=
  t_sum <$> Normal_entropy d.

Definition Independent_log_prob (d : list (list (float * float)))
                                (x : list (list float))
  : result (list float) :=
  rbind (Normal_log_prob d x) (λ lp, Ok (t_sum <$> lp)).

(** [SquashedDiagGaussianDistribution.make_distribution(mean, std)] *)
Definition make_distribution (mean std : list (list float))
  : result (list (list (float * float))) :=
  rbind (pair_up mean std)
        (λ d, if squashed_valid d then Ok d else Err ValueError).

Definition Squashed_log_prob (d : list (list (float * float)))
                             (x : list (list float))
  : result (list float) :=
  zip_exact squashed_log_prob d x.
End Distributions.

(** ** The actors of [stochastic_actors.py]

    A network ([self.model], a backbone or a linear layer) is a function
    from a [batch, in] tensor to a [batch, out] tensor. *)
Abbreviation network := (list (list float) → list (list float)).

Module ActorAgent.
Section Def.
Context `{Torch}.

Definition forward (t : nat) (o : options) : M unit :=
  probs <- get "action_probs" t ;;
  p <- lift (as_float2 probs) ;;
  action <- (if stochastic o
             then d <- lift (Categorical p) ;;
                  draw (λ g, categorical_sample g d)
             else ret (t_argmax <$> p)) ;;
  set "action" t (TInt action).
End Def.
End ActorAgent.

Module BernoulliActor.
Section Def.
Context `{Torch}.

Record t : Type := { model : network }.

Definition half : float := of_Q (1 # 2).

(** [dist.log_prob(action.float()).sum(axis=-1)]: the distribution has
    batch shape [batch, 1] and the action has shape [batch], so the two
    broadcast to [batch, batch] before the sum over the last axis. *)
Definition log_prob_sum (dist : list (list float)) (action : list float)
  : result (list float) :=
  rbind (squeeze_last dist)
        (λ ms, Ok ((λ m, t_sum (bernoulli_log_prob m <$> action)) <$> ms)).

Definition forward (self : t) (t : nat) (o : options) : M unit :=
  x <- get "env/env_obs" t ;;
  obs <- lift (as_float2 x) ;;
  let mean := model self obs in
  dist <- lift (Bernoulli mean) ;;
  set "entropy" t (TFloat2 (map2d bernoulli_entropy dist)) ;;;
  action <- (if stochastic o
             then s <- draw (λ g, bernoulli_sample g dist) ;;
                  a <- lift (squeeze_last (map2d t_int s)) ;;
                  ret (TInt a)
             else let act := map2d (λ m, t_lt m half) mean in
                  a <- lift (squeeze_last act) ;;
                  ret (TBool a)) ;;
  af <- lift (to_float action) ;;
  log_prob <- lift (log_prob_sum dist af) ;;
  set "action" t action ;;;
  set "action_logprobs" t (TFloat log_prob).

Definition predict_action (self : t) (obs : list (list float))
                          (stochastic : bool) : M tensor :=
  let mean := model self obs in
  dist <- lift (Bernoulli mean) ;;
  if stochastic
  then s <- draw (λ g, bernoulli_sample g dist) ;;
       ret (TInt2 (map2d t_int s))
  else let act := map2d (λ m, t_lt m half) mean in
       ret (TBool2 act).
End Def.
End BernoulliActor.

Module ProbAgent.
Section Def.
Context `{Torch}.

Record t : Type := { model : network }.

Definition forward (self : t) (t : nat) (o : options) : M unit :=
  x <- get "env/env_obs" t ;;
  observation <- lift (as_float2 x) ;;
  let scores := model self observation in
  let action_probs := t_softmax <$> scores in
  (if has_nan action_probs then raise AssertionError else ret tt) ;;;
  set "action_probs" t (TFloat2 action_probs) ;;;
  d <- lift (Categorical action_probs) ;;
  let entropy := categorical_entropy <$> d in
  set "entropy" t (TFloat entropy).
End Def.
End ProbAgent.

Module ActionAgent.
Section Def.
Context `{Torch}.

Definition forward (t : nat) (o : options) : M unit :=
  probs <- get "action_probs" t ;;
  p <- lift (as_float2 probs) ;;
  action <- (if stochastic o
             then d <- lift (Categorical p) ;;
                  draw (λ g, categorical_sample g d)
             else ret (t_argmax <$> p)) ;;
  set "action" t (TInt action).
End Def.
End ActionAgent.

Module DiscreteActor.
Section Def.
Context `{Torch}.

Record t : Type := { model : network }.

Definition forward (self : t) (t : nat) (o : options) : M unit :=
  x <- (match observation o with
        | Some x => ret x
        | None => get "env/env_obs" t
        end) ;;
  observation <- lift (as_float2 x) ;;
  let scores := model self observation in
  let probs := t_softmax <$> scores in
  when (compute_entropy o)
    (d <- lift (Categorical probs) ;;
     let entropy := categorical_entropy <$> d in
     set "entropy" t (TFloat entropy)) ;;;
  if predict_proba o
  then a <- get "action" t ;;
       action <- lift (as_int a) ;;
       p <- lift (gather probs action) ;;
       let log_prob := t_log <$> p in
       set "logprob_predict" t (TFloat log_prob)
  else action <- (if stochastic o
                  then d <- lift (Categorical probs) ;;
                       draw (λ g, categorical_sample g d)
                  else ret (t_argmax <$> scores)) ;;
       p <- lift (gather probs action) ;;
       let log_probs := t_log <$> p in
       set "action" t (TInt action) ;;;
       set "action_logprobs" t (TFloat log_probs).
End Def.
End DiscreteActor.

Module TunableVarianceContinuousActor.
Section Def.
Context `{Torch}.

(** [std_param] is the [1, action_dim] parameter of the constructor. *)
Record t : Type := { model : network; std_param : list (list float) }.

(** [self.soft_plus(self.std_param[:, 0])] *)
Definition std (self : t) : result (list float) :=
  rbind (rmap (λ row, index_row row 0) (std_param self))
        (λ col, Ok (t_softplus <$> col)).

Definition get_distribution (self : t) (obs : list (list float))
  : result (list (list (float * float))) :=
  let mean := model self obs in
  rbind (std self) (λ s, rbind (broadcast_vec mean s) (Normal mean)).

Definition forward (self : t) (t : nat) (o : options) : M unit :=
  x <- get "env/env_obs" t ;;
  obs <- lift (as_float2 x) ;;
  let mean := model self obs in
  s <- lift (std self) ;;
  scale <- lift (broadcast_vec mean s) ;;
  dist <- lift (Normal mean scale) ;;
  when (compute_entropy o)
    (set "entropy" t (TFloat (Independent_entropy dist))) ;;;
  if predict_proba o
  then a <- get "action" t ;;
       action <- lift (as_float2 a) ;;
       log_prob <- lift (Independent_log_prob dist action) ;;
       set "logprob_predict" t (TFloat log_prob)
  else action <- (if stochastic o
                  then draw (λ g, normal_sample g dist)
                  else ret mean) ;;
       log_prob <- lift (Independent_log_prob dist action) ;;
       set "action" t (TFloat2 action) ;;;
       set "action_logprobs" t (TFloat log_prob).
End Def.
End TunableVarianceContinuousActor.

Module TunableVarianceContinuousActorExp.
Section Def.
Context `{Torch}.

Record t : Type := { model : network; std_param : list (list float) }.

Definition get_distribution (self : t) (obs : list (list float))
  : result (list (list (float * float))) :=
  let mean := model self obs in
  let std := map2d (t_clamp (-20) 2) (std_param self) in
  rbind (broadcast_mat mean (map2d t_exp std)) (Normal mean).

Definition forward (self : t) (t : nat) (o : options) : M unit :=
  x <- get "env/env_obs" t ;;
  obs <- lift (as_float2 x) ;;
  dist <- lift (get_distribution self obs) ;;
  when (compute_entropy o)
    (set "entropy" t (TFloat (Independent_entropy dist))) ;;;
  if predict_proba o
  then a <- get "action" t ;;
       action <- lift (as_float2 a) ;;
       lp <- lift (Independent_log_prob dist action) ;;
       set "logprob_predict" t (TFloat lp)
  else action <- (if stochastic o
                  then draw (λ g, normal_sample g dist)
                  else ret (map2d fst dist)) ;;
       logp_pi <- lift (Independent_log_prob dist action) ;;
       set "action" t (TFloat2 action) ;;;
       set "action_logprobs" t (TFloat logp_pi).
End Def.
End TunableVarianceContinuousActorExp.

Module StateDependentVarianceContinuousActor.
Section Def.
Context `{Torch}.

Record t : Type := {
  backbone : network;
  last_mean_layer : network;
  last_std_layer : network;
}.

Definition get_distribution (self : t) (obs : list (list float))
  : result (list (list (float * float))) :=
  let backbone_output := backbone self obs in
  let mean := last_mean_layer self backbone_output in
  let std_out := last_std_layer self backbone_output in
  let std := map2d t_exp std_out in
  Normal mean std.

Definition forward (self : t) (t : nat) (o : options) : M unit :=
  x <- get "env/env_obs" t ;;
  obs <- lift (as_float2 x) ;;
  let backbone_output := backbone self obs in
  let mean := last_mean_layer self backbone_output in
  let std_out := last_std_layer self backbone_output in
  let std := map2d t_exp std_out in
  dist <- lift (Normal mean std) ;;
  when (compute_entropy o)
    (set "entropy" t (TFloat (Independent_entropy dist))) ;;;
  if predict_proba o
  then a <- get "action" t ;;
       action <- lift (as_float2 a) ;;
       lp <- lift (Independent_log_prob dist action) ;;
       set "logprob_predict" t (TFloat lp)
  else action <- (if stochastic o
                  then draw (λ g, normal_sample g dist)
                  else ret mean) ;;
       log_prob <- lift (Independent_log_prob dist action) ;;
       set "action" t (TFloat2 action) ;;;
       set "action_logprobs" t (TFloat log_prob).
End Def.
End StateDependentVarianceContinuousActor.

Module ConstantVarianceContinuousActor.
Section Def.
Context `{Torch}.

Record t : Type := { model : network }.

(** [self.std_param = 2] *)
Definition std_param : float := of_Q 2.

Definition get_distribution (self : t) (obs : list (list float))
  : result (list (list (float * float))) :=
  let mean := model self obs in
  Normal mean (map2d (λ _, std_param) mean).

Definition forward (self : t) (t : nat) (o : options) : M unit :=
  x <- get "env/env_obs" t ;;
  obs <- lift (as_float2 x) ;;
  let mean := model self obs in
  dist <- lift (Normal mean (map2d (λ _, std_param) mean)) ;;
  set "entropy" t (TFloat2 (Normal_entropy dist)) ;;;
  if predict_proba o
  then a <- get "action" t ;;
       action <- lift (as_float2 a) ;;
       lp <- lift (Normal_log_prob dist action) ;;
       set "logprob_predict" t (TFloat2 lp)
  else action <- (if stochastic o
                  then draw (λ g, normal_sample g dist)
                  else ret mean) ;;
       lp <- lift (Normal_log_prob dist action) ;;
       let log_prob := t_sum <$> lp in
       set "action" t (TFloat2 action) ;;;
       set "action_logprobs" t (TFloat log_prob).
End Def.
End ConstantVarianceContinuousActor.

Module SquashedGaussianActor.
Section Def.
Context `{Torch}.

Record t : Type := {
  backbone : network;
  last_mean_layer : network;
  last_std_layer : network;
}.

Definition get_distribution (self : t) (obs : list (list float))
  : result (list (list (float * float))) :=
  let backbone_output := backbone self obs in
  let mean := last_mean_layer self backbone_output in
  let std_out := last_std_layer self backbone_output in
  let std_out := map2d (t_clamp (-20) 2) std_out in
  let std := map2d t_exp std_out in
  make_distribution mean std.

Definition forward (self : t) (t : nat) (o : options) : M unit :=
  x <- get "env/env_obs" t ;;
  obs <- lift (as_float2 x) ;;
  action_dist <- lift (get_distribution self obs) ;;
  if predict_proba o
  then a <- get "action" t ;;
       action <- lift (as_float2 a) ;;
       log_prob <- lift (Squashed_log_prob action_dist action) ;;
       set "logprob_predict" t (TFloat log_prob)
  else action <- (if stochastic o
                  then draw (λ g, squashed_sample g action_dist)
                  else ret (squashed_mode <$> action_dist)) ;;
       log_prob <- lift (Squashed_log_prob action_dist action) ;;
       set "action" t (TFloat2 action) ;;;
       set "action_logprobs" t (TFloat log_prob).
End Def.
End SquashedGaussianActor.

(** ** Every agent class of the file, and the dispatch of [forward] *)
Inductive actor `{Torch} : Type :=
| AActorAgent
| ABernoulli (a : BernoulliActor.t)
| AProbAgent (a : ProbAgent.t)
| AActionAgent
| ADiscrete (a : DiscreteActor.t)
| ATunable (a : TunableVarianceContinuousActor.t)
| ATunableExp (a : TunableVarianceContinuousActorExp.t)
| AStateDependent (a : StateDependentVarianceContinuousActor.t)
| AConstant (a : ConstantVarianceContinuousActor.t)
| ASquashed (a : SquashedGaussianActor.t).

Section Dispatch.
Context `{Torch}.

Definition forward (a : actor) (t : nat) (o : options) : M unit :=
  match a with
  | AActorAgent => ActorAgent.forward t o
  | ABernoulli a => BernoulliActor.forward a t o
  | AProbAgent a => ProbAgent.forward a t o
  | AActionAgent => ActionAgent.forward t o
  | ADiscrete a => DiscreteActor.forward a t o
  | ATunable a => TunableVarianceContinuousActor.forward a t o
  | ATunableExp a => TunableVarianceContinuousActorExp.forward a t o
  | AStateDependent a => StateDependentVarianceContinuousActor.forward a t o
  | AConstant a => ConstantVarianceContinuousActor.forward a t o
  | ASquashed a => SquashedGaussianActor.forward a t o
  end.

(** The observation a call works on: [kwargs["observation"]] for the one
    class that looks for it, the stored observation otherwise. *)
Definition observed (a : actor) (o : options) (w : workspace) (t : nat)
  : result tensor :=
  match a, observation o with
  | ADiscrete _, Some x => Ok x
  | _, _ => ws_get w "env/env_obs" t
  end.

(** The log-probability a class assigns to [action] under its current
    distribution at [obs], in the form its [predict_proba] branch
    computes it. *)
Definition log_prob (a : actor) (obs : list (list float)) (action : tensor)
  : result tensor :=
  match a with
  | ADiscrete d =>
      rbind (as_int action) (λ act,
      rbind (gather (t_softmax <$> DiscreteActor.model d obs) act) (λ p,
      Ok (TFloat (t_log <$> p))))
  | ATunable d =>
      rbind (TunableVarianceContinuousActor.get_distribution d obs) (λ dist,
      rbind (as_float2 action) (λ act,
      rbind (Independent_log_prob dist act) (λ lp, Ok (TFloat lp))))
  | ATunableExp d =>
      rbind (TunableVarianceContinuousActorExp.get_distribution d obs)
        (λ dist,
      rbind (as_float2 action) (λ act,
      rbind (Independent_log_prob dist act) (λ lp, Ok (TFloat lp))))
  | AStateDependent d =>
      rbind (StateDependentVarianceContinuousActor.get_distribution d obs)
        (λ dist,
      rbind (as_float2 action) (λ act,
      rbind (Independent_log_prob dist act) (λ lp, Ok (TFloat lp))))
  | AConstant d =>
      rbind (ConstantVarianceContinuousActor.get_distribution d obs)
        (λ dist,
      rbind (as_float2 action) (λ act,
      rbind (Normal_log_prob dist act) (λ lp, Ok (TFloat2 lp))))
  | ASquashed d =>
      rbind (SquashedGaussianActor.get_distribution d obs) (λ dist,
      rbind (as_float2 action) (λ act,
      rbind (Squashed_log_prob dist act) (λ lp, Ok (TFloat lp))))
  | _ => Err TypeError
  end.

(** The entropy of a class's current distribution at [obs], for the
    classes that record it on request. *)
Definition entropy_of (a : actor) (obs : list (list float)) : result tensor :=
  match a with
  | ADiscrete d =>
      rbind (Categorical (t_softmax <$> DiscreteActor.model d obs)) (λ dist,
      Ok (TFloat (categorical_entropy <$> dist)))
  | ATunable d =>
      rbind (TunableVarianceContinuousActor.get_distribution d obs) (λ dist,
      Ok (TFloat (Independent_entropy dist)))
  | ATunableExp d =>
      rbind (TunableVarianceContinuousActorExp.get_distribution d obs)
        (λ dist, Ok (TFloat (Independent_entropy dist)))
  | AStateDependent d =>
      rbind (StateDependentVarianceContinuousActor.get_distribution d obs)
        (λ dist, Ok (TFloat (Independent_entropy dist)))
  | _ => Err TypeError
  end.

(** The classes whose [forward] has a [predict_proba] parameter. *)
Definition takes_predict_proba (a : actor) : bool :=
  match a with
  | ADiscrete _ | ATunable _ | ATunableExp _ | AStateDependent _
  | AConstant _ | ASquashed _ => true
  | _ => false
  end.

(** The classes whose [forward] tests its [compute_entropy] parameter. *)
Definition tests_compute_entropy (a : actor) : bool :=
  match a with
  | ADiscrete _ | ATunable _ | ATunableExp _ | AStateDependent _ => true
  | _ => false
  end.

(** The classes that sum the log-probability over the action dimension
    in both branches of [predict_proba]. *)
Definition rescoring_actor (a : actor) : bool :=
  match a with
  | ADiscrete _ | ATunable _ | ATunableExp _ | AStateDependent _
  | ASquashed _ => true
  | _ => false
  end.
End Dispatch.

(** ** A symbolic instance of the numerical library

    Scalars are rational literals, NaN, or applications of a named kernel to
    its arguments, left unevaluated: the instance records which torch
    computation produced a value instead of rounding it.  NaN propagates
    through every kernel.  The generator is a draw counter and sampling is a
    fixed function of it. *)
Module Sym.
#[local] Unset Elimination Schemes.
Inductive sym : Type :=
| SNaN
| SLit (q : Q)
| SApp (f : string) (args : list sym).
#[local] Set Elimination Schemes.

Definition sym_isnan (x : sym) : bool :=
  match x with SNaN => true | _ => false end.

Definition sapp (f : string) (args : list sym) : sym :=
  if existsb sym_isnan args then SNaN else SApp f args.

Definition q_ltb (a b : Q) : bool :=
  (Qnum a * Zpos (Qden b) <? Qnum b * Zpos (Qden a))%Z.

Definition sym_lt (x y : sym) : bool :=
  match x, y with
  | SLit a, SLit b => q_ltb a b
  | _, _ => false
  end.

Definition sym_add (x y : sym) : sym :=
  match x, y with
  | SLit a, SLit b => SLit (Qred (a + b))
  | _, _ => sapp "add" [x; y]
  end.

Definition sym_clamp (lo hi : Q) (x : sym) : sym :=
  match x with
  | SNaN => SNaN
  | SLit q => SLit (if q_ltb q lo then lo else if q_ltb hi q then hi else q)
  | _ => SApp "clamp" [SLit lo; SLit hi; x]
  end.

Definition sym_int (x : sym) : Z :=
  match x with
  | SLit q => Z.quot (Qnum q) (Zpos (Qden q))
  | _ => 0
  end.

Definition sym_softmax (row : list sym) : list sym :=
  if existsb sym_isnan row then (λ _, SNaN) <$> row
  else (λ x, SApp "softmax" (x :: row)) <$> row.

(** As [torch.argmax]: the first greatest entry, a NaN counting as
    greatest. *)
Definition better (x best : sym) : bool :=
  match best, x with
  | SNaN, _ => false
  | _, SNaN => true
  | _, _ => sym_lt best x
  end.

Fixpoint argmax_from (l : list sym) (i bi : nat) (best : sym) : nat :=
  match l with
  | [] => bi
  | x :: l' =>
      if better x best then argmax_from l' (S i) i x
      else argmax_from l' (S i) bi best
  end.

Definition sym_argmax (row : list sym) : Z :=
  match row with
  | [] => 0
  | x :: l => Z.of_nat (argmax_from l 1 0 x)
  end.

Definition no_nan (row : list sym) : bool := negb (existsb sym_isnan row).

Definition in_unit (x : sym) : bool :=
  match x with
  | SNaN => false
  | SLit q => negb (q_ltb q 0) && negb (q_ltb 1 q)
  | _ => true
  end.

Definition loc_scale_ok (d : sym * sym) : bool :=
  negb (sym_isnan d.1) &&
  match d.2 with
  | SNaN => false
  | SLit q => q_ltb 0 q
  | _ => true
  end.

Definition counter (g : nat) : sym := SLit (inject_Z (Z.of_nat g)).

#[export] Instance torch : Torch := {|
  float := sym;
  generator := nat;
  of_Q := SLit;
  isnan := sym_isnan;
  t_lt := sym_lt;
  t_add := sym_add;
  t_log := λ x, sapp "log" [x];
  t_exp := λ x, sapp "exp" [x];
  t_softplus := λ x, sapp "softplus" [x];
  t_clamp := sym_clamp;
  t_int := sym_int;
  t_sum := sapp "sum";
  t_softmax := sym_softmax;
  t_argmax := sym_argmax;
  categorical_valid := forallb no_nan;
  categorical_entropy := sapp "categorical_entropy";
  categorical_sample := λ g probs,
    ((λ row, Z.of_nat (g `mod` length row)) <$> probs, S g);
  bernoulli_valid := forallb (forallb in_unit);
  bernoulli_entropy := λ m, sapp "bernoulli_entropy" [m];
  bernoulli_sample := λ g mean,
    (map (map (λ _, SLit (inject_Z (Z.of_nat (g `mod` 2))))) mean, S g);
  bernoulli_log_prob := λ m a, sapp "bernoulli_log_prob" [m; a];
  normal_valid := forallb (forallb loc_scale_ok);
  normal_entropy := λ d, sapp "normal_entropy" [d.2];
  normal_sample := λ g d,
    (map (map (λ p, sapp "normal_sample" [p.1; p.2; counter g])) d, S g);
  normal_log_prob := λ d x, sapp "normal_log_prob" [d.1; d.2; x];
  squashed_valid := forallb (forallb loc_scale_ok);
  squashed_sample := λ g d,
    (map (map (λ p, sapp "squashed_sample" [p.1; p.2; counter g])) d, S g);
  squashed_mode := map (λ p, sapp "tanh" [p.1]);
  squashed_log_prob := λ d x,
    sapp "squashed_log_prob" ((fst <$> d) ++ (snd <$> d) ++ x);
|}.
End Sym.

(** ** Training-loop fragments *)

(** A channel of the transition view: [x[0]] and [x[1]] are the two entries
    of the leading pair axis, one element per transition. *)
Definition pair_tensor (A : Type) : Type := list A * list A.

(** Modelled from the spec: [get_transitions()] reshapes a channel into
    adjacent pairs [(t, t+1)] for all valid [t]; the last time step, which
    has no successor, is dropped.  Transitions are laid out time-major. *)
Definition get_transitions {A} (x : list (list A)) : pair_tensor A :=
  (concat (removelast x), concat (tail x)).

Definition logical_not (x : list bool) : list bool := negb <$> x.

Definition logical_or (x y : list bool) : result (list bool) :=
  zip_exact orb x y.

(** The part of [cfg.algorithm] the fragments read. *)
Record config : Type := {
  discount_factor : Q;
  gae_coef : Q;          (* cfg.algorithm.gae *)
  clip_range_vf : Q;
}.

Section Advantage.
Open Scope Q_scope.

Definition b2q (b : bool) : Q := if b then 1 else 0.

(** Modelled from the spec: the advantage estimator
    [bbrl.utils.functionalb.gae] is not part of the sources.  Tensors are
    time-major, one row of batch values per time step, and arithmetic is
    exact, over the rationals.  The one-step residual of one time step,
    [δ_t = r_t + γ·V_{t+1}·must_bootstrap_t − V_t]: *)
Definition td_row (γ : Q) (r v1 : list Q) (m : list bool) (v0 : list Q)
  : list Q :=
  zip_with (λ a b, a.1 + γ * a.2 * b2q b.1 - b.2) (zip r v1) (zip m v0).

(** Modelled from the spec: the residuals of all time steps, from
    [r[0..T-1]], [V[1..T]], [must_bootstrap[0..T-1]] and [V[0..T-1]]. *)
Definition td (γ : Q) (V r : list (list Q)) (mb : list (list bool))
  : list (list Q) :=
  zip_with (λ a b, td_row γ a.1 a.2 b.1 b.2) (zip r (tail V)) (zip mb V).

(** Modelled from the spec: one step of the backward accumulation,
    [A_t = δ_t + γλ·must_bootstrap_t·A_{t+1}]. *)
Definition acc_row (γ lam : Q) (δ : list Q) (m : list bool) (a1 : list Q)
  : list Q :=
  zip_with (λ a b, a.1 + γ * lam * b2q a.2 * b) (zip δ m) a1.

(** Modelled from the spec: the backward accumulation over all time
    steps; the last step has no successor and keeps its residual. *)
Definition accumulate (γ lam : Q) (δs : list (list Q)) (mb : list (list bool))
  : list (list Q) :=
  foldr (λ a acc, match acc with
                  | [] => [a.1]
                  | a1 :: _ => acc_row γ lam a.1 a.2 a1 :: acc
                  end) [] (zip δs mb).

(** Modelled from the spec:
    [gae(critic, reward, must_bootstrap, discount_factor, gae_coef)]. *)
Definition gae (V r : list (list Q)) (mb : list (list bool)) (γ lam : Q)
  : list (list Q) :=
  accumulate γ lam (td γ V r mb) mb.

Definition Qsum (l : list Q) : Q := foldr Qplus 0 l.

(** [x.mean()] over every element (the mean of an empty tensor, NaN in
    torch, is 0 here). *)
Definition mean (x : list (list Q)) : Q :=
  Qsum (concat x) / inject_Z (Z.of_nat (length (concat x))).

(** [a2c.py], [compute_advantages_loss] *)
Definition compute_advantages_loss (cfg : config) (reward : list (list Q))
    (must_bootstrap : list (list bool)) (v_value : list (list Q))
  : Q * list (list Q) :=
  let advantages :=
    gae v_value reward must_bootstrap (discount_factor cfg) (gae_coef cfg) in
  let td_error := map (map (λ a, a ^ 2)) advantages in
  let critic_loss := mean td_error in
  (critic_loss, advantages).

(** [ppo_basic.py], [compute_advantage_loss] *)
Definition compute_advantage_loss (cfg : config) (reward : list (list Q))
    (must_bootstrap : list (list bool)) (v_value : list (list Q))
  : Q * list (list Q) :=
  let advantages :=
    gae v_value reward must_bootstrap (discount_factor cfg) (gae_coef cfg) in
  let td_error := map (map (λ a, a ^ 2)) advantages in
  let critic_loss := mean td_error in
  (critic_loss, advantages).

(** [torch.clamp(x, lo, hi)] *)
Definition clamp (lo hi x : Q) : Q :=
  let y := if Qle_bool lo x then x else lo in
  if Qle_bool y hi then y else hi.

(** Entry [b] of row [t], with an absent entry read as 0. *)
Definition at2 (x : list (list Q)) (t b : nat) : Q := nth b (nth t x []) 0.

Definition bit (m : list (list bool)) (t b : nat) : Q :=
  b2q (nth b (nth t m []) false).
End Advantage.

(** The rows of a pair tensor as a time-major tensor of two steps. *)
Definition rows {A} (x : pair_tensor A) : list (list A) := [x.1; x.2].

(** [run_a2c], lines 172-177 *)
Module A2C.
Definition must_bootstrap (done truncated : pair_tensor bool)
  : result (list bool) :=
  logical_or (logical_not done.2) truncated.2.

Definition losses (cfg : config) (v_value : pair_tensor Q)
    (done truncated : pair_tensor bool) (reward : pair_tensor Q)
  : result (Q * list (list Q)) :=
  rbind (must_bootstrap done truncated) (λ mb,
  Ok (compute_advantages_loss cfg (rows reward) [mb] (rows v_value))).
End A2C.

(** [run_ppo], lines 181-204 *)
Module PPO.
Definition must_bootstrap (done truncated : pair_tensor bool)
  : result (list bool) :=
  logical_or (logical_not done.2) truncated.2.

(** [old_v_value + torch.clamp(v_value - old_v_value, -c, c)] *)
Definition clip_values (c : Q) (old_v_value v_value : list (list Q))
  : list (list Q) :=
  zip_with (zip_with (λ old v, old + clamp (- c) c (v - old))%Q)
           old_v_value v_value.

Definition losses (cfg : config) (v_value : pair_tensor Q)
    (done truncated : pair_tensor bool) (reward : pair_tensor Q)
  : result (Q * list (list Q)) :=
  rbind (must_bootstrap done truncated) (λ mb,
  let old_v_value := v_value in
  let v_value :=
    if Qle_bool (clip_range_vf cfg) 0 then rows v_value
    else clip_values (clip_range_vf cfg) (rows old_v_value) (rows v_value) in
  Ok (compute_advantage_loss cfg (rows reward) [mb] v_value)).
End PPO.

(** [run_fqi], line 124 *)
Module FQI.
Definition must_bootstrap (done truncated : pair_tensor bool)
  : result (list bool) :=
  logical_or (logical_not done.2) truncated.2.
End FQI.

(** ** The execution engine

    Modelled from the spec: composite and temporal agents and the
    environment driver belong to the [bbrl] package and are not part of the
    sources; the definitions below follow sections 3 and 4.2 to 4.4 of the
    specification. *)

(** Modelled from the spec: the action one environment slot receives. *)
Inductive slot_action `{Torch} : Type :=
| AInt (z : Z)
| ABool (b : bool)
| AVec (v : list float).

(** Modelled from the spec: the environment collaborator, with [reset]
    from a seed and [step], which returns
    [(observation, reward, done, truncated)].  An instance carries its own
    source of randomness in its state. *)
Class Env `{Torch} : Type := {
  env_state : Type;
  env_reset : Z → env_state * list float;
  env_step :
    env_state → slot_action → env_state * (list float * float * bool * bool);
}.

Section Engine.
Context `{Torch} `{!Env}.

(** Modelled from the spec: the per-slot state of the environment
    driver. *)
Record slot : Type := {
  instance : env_state;
  last_obs : list float;
  cumulated : float;
  step_count : nat;
  is_done : bool;
  is_truncated : bool;
}.

(** Modelled from the spec: what a slot contributes to one time step of
    the five environment channels. *)
Record slot_row : Type := {
  row_obs : list float;
  row_reward : float;
  row_done : bool;
  row_truncated : bool;
  row_cumulated : float;
}.

(** Modelled from the spec: the state of a rollout, made of the
    workspace, the torch generator and the slots of the environment
    driver. *)
Record world : Type := {
  ws : workspace;
  gen : generator;
  slots : list slot;
}.

(** Modelled from the spec: an agent is called with a time index and the
    options and acts on the state of the rollout. *)
Definition agent : Type := nat → options → world → result unit * world.

(** An agent of the sources runs on the workspace and the generator. *)
Definition lift_agent (f : nat → options → M unit) : agent :=
  λ t o x,
    let r := f t o (ws x, gen x) in
    (r.1, {| ws := r.2.1; gen := r.2.2; slots := slots x |}).

(** The float 0. *)
Definition zero : float := of_Q 0.

(** Modelled from the spec: the first step of a rollout resets every
    slot, seeding it with the base seed plus its index. *)
Definition reset_slot (seed : Z) (i : nat) : slot * slot_row :=
  let r := env_reset (seed + Z.of_nat i) in
  ({| instance := r.1; last_obs := r.2; cumulated := zero;
      step_count := 0; is_done := false; is_truncated := false |},
   {| row_obs := r.2; row_reward := zero; row_done := false;
      row_truncated := false; row_cumulated := zero |}).

(** Modelled from the spec, NoAutoReset variant: a running slot applies
    the action to its environment and adds the reward to the running
    sum; a slot that has reached [done or truncated] is no longer
    stepped and repeats its final observation with a zero reward. *)
Definition step_slot (s : slot) (a : slot_action) : slot * slot_row :=
  if is_done s || is_truncated s
  then (s, {| row_obs := last_obs s; row_reward := zero;
              row_done := is_done s; row_truncated := is_truncated s;
              row_cumulated := cumulated s |})
  else
    let r := env_step (instance s) a in
    let c := t_add (cumulated s) r.2.1.1.2 in
    ({| instance := r.1; last_obs := r.2.1.1.1; cumulated := c;
        step_count := S (step_count s);
        is_done := r.2.1.2; is_truncated := r.2.2 |},
     {| row_obs := r.2.1.1.1; row_reward := r.2.1.1.2;
        row_done := r.2.1.2; row_truncated := r.2.2;
        row_cumulated := c |}).

(** Modelled from the spec: the per-slot actions held by an action
    tensor. *)
Definition slot_actions (x : tensor) : result (list slot_action) :=
  match x with
  | TInt v => Ok (AInt <$> v)
  | TBool v => Ok (ABool <$> v)
  | TFloat v => Ok ((λ a, AVec [a]) <$> v)
  | TFloat2 v => Ok (AVec <$> v)
  | _ => Err TypeError
  end.

(** Modelled from the spec: the driver writes one row of each
    environment channel. *)
Definition write_rows (t : nat) (rows : list slot_row) : M unit :=
  set "env/env_obs" t (TFloat2 (row_obs <$> rows)) ;;;
  set "env/reward" t (TFloat (row_reward <$> rows)) ;;;
  set "env/done" t (TBool (row_done <$> rows)) ;;;
  set "env/truncated" t (TBool (row_truncated <$> rows)) ;;;
  set "env/cumulated_reward" t (TFloat (row_cumulated <$> rows)).

End Engine.

Module NoAutoResetGymAgent.
Section Def.
Context `{Torch} `{!Env}.

Record t : Type := { n_envs : nat; seed : Z }.

(** Modelled from the spec: at time 0 every slot is reset; at a later
    time [t] the action stored at [t - 1] is applied slot by slot.  The
    slots advance before the rows are written. *)
Definition forward (self : t) : agent :=
  λ t o x,
    let stepped :=
      match t with
      | 0 => Ok (reset_slot (seed self) <$> seq 0 (n_envs self))
      | S t' =>
          rbind (ws_get (ws x) "action" t') (λ a,
          rbind (slot_actions a) (λ acts,
          zip_exact step_slot (slots x) acts))
      end in
    match stepped with
    | Err e => (Err e, x)
    | Ok l =>
        lift_agent (λ t _, write_rows t (snd <$> l)) t o
          {| ws := ws x; gen := gen x; slots := fst <$> l |}
    end.
End Def.
End NoAutoResetGymAgent.

Module Agents.
Section Def.
Context `{Torch} `{!Env}.

(** Modelled from the spec: the agents run in order at the same time
    step, each seeing the effects of its predecessors. *)
Fixpoint forward (agents : list agent) : agent :=
  λ t o x,
    match agents with
    | [] => (Ok tt, x)
    | a :: rest =>
        match a t o x with
        | (Ok _, x') => forward rest t o x'
        | (Err e, x') => (Err e, x')
        end
    end.
End Def.
End Agents.

Module TemporalAgent.
Section Def.
Context `{Torch} `{!Env}.

(** Modelled from the spec: [run(workspace, t_start, n_steps, options)]
    executes the wrapped agent once per time step
    [t_start, ..., t_start + n_steps - 1]. *)
Fixpoint run (a : agent) (t n_steps : nat) (o : options) (x : world)
  : result unit * world :=
  match n_steps with
  | 0 => (Ok tt, x)
  | S n =>
      match a t o x with
      | (Ok _, x') => run a (S t) n o x'
      | (Err e, x') => (Err e, x')
      end
  end.

(** Modelled from the spec: [stop_variable.all()] on the row just
    written. *)
Definition all_set (x : tensor) : result bool :=
  match x with
  | TBool v => Ok (forallb id v)
  | _ => Err TypeError
  end.

(** Modelled from the spec: with a stop variable the loop has no fixed
    step count and ends after the first step at which every slot of the
    stop channel is set.  [None] means that the loop is still running
    after [fuel] steps. *)
Fixpoint run_until (fuel : nat) (a : agent) (t : nat)
    (stop_variable : string) (o : options) (x : world)
  : option (result unit * world) :=
  match fuel with
  | 0 => None
  | S fuel' =>
      match a t o x with
      | (Ok _, x') =>
          match rbind (ws_get (ws x') stop_variable t) all_set with
          | Ok true => Some (Ok tt, x')
          | Ok false => run_until fuel' a (S t) stop_variable o x'
          | Err e => Some (Err e, x')
          end
      | (Err e, x') => Some (Err e, x')
      end
  end.
End Def.
End TemporalAgent.

Section Rollouts.
Context `{Torch} `{!Env}.

(** [Agents(eval_env_agent, action_agent)] of [create_a2c_agent] *)
Definition ev_agent (env : NoAutoResetGymAgent.t) (a : actor) : agent :=
  Agents.forward [NoAutoResetGymAgent.forward env; lift_agent (forward a)].

Definition empty_world (g : generator) : world :=
  {| ws := ∅; gen := g; slots := [] |}.

(** The evaluation rollout of [run_a2c], lines 202-209:
    [eval_agent(eval_workspace, t=0, stop_variable="env/done",
    stochastic=False, predict_proba=False)] on a fresh workspace. *)
Definition eval_options : options :=
  {| stochastic := false; predict_proba := false;
     compute_entropy := false; observation := None |}.

Definition evaluate (fuel : nat) (env : NoAutoResetGymAgent.t) (a : actor)
    (g : generator) : option (result unit * world) :=
  TemporalAgent.run_until fuel (ev_agent env a) 0 "env/done" eval_options
    (empty_world g).

(** [eval_workspace["env/cumulated_reward"][-1]] *)
Definition last_row (w : workspace) (c : string) : result tensor :=
  match last (channel w c) with
  | Some x => Ok x
  | None => Err IndexError
  end.

(** A rollout of the same agent for a fixed number of steps from a given
    workspace, with a driver that has not run yet. *)
Definition rollout (env : NoAutoResetGymAgent.t) (a : actor) (o : options)
    (n_steps : nat) (w : workspace) (g : generator)
  : result unit * world :=
  TemporalAgent.run (ev_agent env a) 0 n_steps o
    {| ws := w; gen := g; slots := [] |}.
End Rollouts.

Section Reading.
Context `{Torch}.

(** Modelled from the spec: [zero_grad()] drops the computation-graph
    state and keeps the values. *)
Definition zero_grad (w : workspace) : workspace := w.

(** The value one slot holds at one time step of an environment
    channel. *)
Definition obs_at (w : workspace) (t i : nat) : option (list float) :=
  match ws_get w "env/env_obs" t with
  | Ok (TFloat2 v) => v !! i
  | _ => None
  end.

Definition reward_at (w : workspace) (t i : nat) : option float :=
  match ws_get w "env/reward" t with
  | Ok (TFloat v) => v !! i
  | _ => None
  end.

Definition done_at (w : workspace) (t i : nat) : option bool :=
  match ws_get w "env/done" t with
  | Ok (TBool v) => v !! i
  | _ => None
  end.

Definition truncated_at (w : workspace) (t i : nat) : option bool :=
  match ws_get w "env/truncated" t with
  | Ok (TBool v) => v !! i
  | _ => None
  end.

Definition cumulated_at (w : workspace) (t i : nat) : option float :=
  match ws_get w "env/cumulated_reward" t with
  | Ok (TFloat v) => v !! i
  | _ => None
  end.
End Reading.

Section Segments.
Context `{Torch} `{!Env}.

(** The rollout of one training epoch, [run_a2c] lines 133-152: the
    first epoch runs [n_steps] steps from time 0; a later epoch keeps
    the last step of the previous segment and runs [n_steps - 1] steps
    from time 1. *)
Definition train_options : options :=
  {| stochastic := true; predict_proba := false;
     compute_entropy := true; observation := None |}.

Definition first_segment (a : agent) (n_steps : nat) (x : world)
  : result unit * world :=
  TemporalAgent.run a 0 n_steps train_options x.

Definition next_segment (a : agent) (n_steps : nat) (x : world)
  : result unit * world :=
  let w := copy_n_last_steps 1 (zero_grad (ws x)) in
  TemporalAgent.run a 1 (n_steps - 1) train_options
    {| ws := w; gen := gen x; slots := slots x |}.
End Segments.

(** ** Predicates of the statements and proofs *)

(** The channels the environment driver writes. *)
Definition env_channels : list string :=
  ["env/env_obs"; "env/reward"; "env/done"; "env/truncated";
   "env/cumulated_reward"].

Section Shapes.
Open Scope Q_scope.

(** A time-major tensor of [n] rows of [b] entries. *)
Definition rect {A} (n b : nat) (x : list (list A)) : Prop :=
  length x = n ∧ Forall (λ row, length row = b) x.

(** The one-step residual [δ_t] of slot [b]. *)
Definition residual (γ : Q) (V r : list (list Q)) (mb : list (list bool))
    (t b : nat) : Q :=
  at2 r t b + γ * at2 V (S t) b * bit mb t b - at2 V t b.
End Shapes.

Section GenFree.
Context `{Torch}.

(** [m] neither reads nor advances the generator. *)
Definition gen_free {A} (m : M A) : Prop :=
  ∀ (w : workspace) (g g' : generator),
    (m (w, g)).1 = (m (w, g')).1 ∧
    (m (w, g)).2.1 = (m (w, g')).2.1 ∧
    (m (w, g)).2.2 = g.
End GenFree.

Section AgentPredicates.
Context `{Torch} `{!Env}.

(** An agent whose call at time [t] leaves the earlier time steps of
    every channel as they were. *)
Definition time_local (a : agent) : Prop :=
  ∀ t o x x', a t o x = (Ok tt, x') →
    ∀ c i, i < t → ws_get (ws x') c i = ws_get (ws x) c i.

(** The result, workspace and slots of a call do not depend on the
    generator the call starts from. *)
Definition gen_blind (a : agent) (o : options) : Prop :=
  ∀ t x y, ws x = ws y → slots x = slots y →
    (a t o x).1 = (a t o y).1 ∧
    ws (a t o x).2 = ws (a t o y).2 ∧
    slots (a t o x).2 = slots (a t o y).2.

(** The rows the driver wrote at time [t]. *)
Definition row_is (w : workspace) (t : nat) (rows : list slot_row) : Prop :=
  ws_get w "env/env_obs" t = Ok (TFloat2 (row_obs <$> rows)) ∧
  ws_get w "env/reward" t = Ok (TFloat (row_reward <$> rows)) ∧
  ws_get w "env/done" t = Ok (TBool (row_done <$> rows)) ∧
  ws_get w "env/truncated" t = Ok (TBool (row_truncated <$> rows)) ∧
  ws_get w "env/cumulated_reward" t = Ok (TFloat (row_cumulated <$> rows)).

(** A slot agrees with the row it wrote last. *)
Definition tracks (s : slot) (r : slot_row) : Prop :=
  last_obs s = row_obs r ∧ is_done s = row_done r ∧
  is_truncated s = row_truncated r ∧ cumulated s = row_cumulated r.

(** How the row of a slot follows from its previous row. *)
Definition follows (r r' : slot_row) : Prop :=
  if row_done r || row_truncated r
  then r' = {| row_obs := row_obs r; row_reward := zero;
               row_done := row_done r; row_truncated := row_truncated r;
               row_cumulated := row_cumulated r |}
  else row_cumulated r' = t_add (row_cumulated r) (row_reward r').

(** The state of a rollout after [k] steps from time 0. *)
Record rolled (n k : nat) (x : world) : Prop := {
  rolled_length : ∀ c, c ∈ env_channels → length (channel (ws x) c) = k;
  rolled_rows : ∀ s, s < k →
    ∃ rows, row_is (ws x) s rows ∧ length rows = n;
  rolled_slots : 0 < k →
    ∃ rows, row_is (ws x) (k - 1) rows ∧ length rows = n ∧
            Forall2 tracks (slots x) rows;
  rolled_step : ∀ s, S s < k →
    ∃ rows rows', row_is (ws x) s rows ∧ row_is (ws x) (S s) rows' ∧
                  Forall2 follows rows rows';
  rolled_first : 0 < k →
    ∃ rows, row_is (ws x) 0 rows ∧
            Forall (λ r, row_cumulated r = zero) rows;
}.
End AgentPredicates.

(** ** Concrete agents and workspaces over the symbolic instance *)
Module Example.
Import Sym.

(** Two environments with two observation features each. *)
Definition features : list (list float) :=
  [[SLit 0; SLit 1]; [SLit 1; SLit 0]].

Definition obs : tensor := TFloat2 features.

Definition fresh : workspace := {[ "env/env_obs" := [obs] ]}.

Definition call (sto pp ce : bool) : options :=
  {| stochastic := sto; predict_proba := pp; compute_entropy := ce;
     observation := None |}.

(** A policy head whose scores are the observation itself. *)
Definition discrete : DiscreteActor.t := {| DiscreteActor.model := λ x, x |}.

(** A policy head whose scores are NaN in the first column. *)
Definition diverged : DiscreteActor.t :=
  {| DiscreteActor.model := map (λ _, [SNaN; SLit 0]) |}.

(** A Bernoulli head that predicts the mean 7/10 everywhere. *)
Definition bernoulli : BernoulliActor.t :=
  {| BernoulliActor.model := map (λ _, [SLit (7 # 10)]) |}.

(** A workspace in which an action is already stored at time 0. *)
Definition acted : workspace :=
  {[ "env/env_obs" := [obs]; "action" := [TInt [1%Z; 1%Z]] ]}.

(** A Gaussian head with the constant scale 2 whose mean is the
    observation. *)
Definition constant : ConstantVarianceContinuousActor.t :=
  {| ConstantVarianceContinuousActor.model := λ x, x |}.

(** The states reached by the calls used below. *)
Definition run (a : actor) (o : options) (s : state) : state :=
  (forward a 0 o s).2.

Definition sampled : state :=
  run (ADiscrete discrete) (call true false true) (fresh, 0).

Definition rescored : state :=
  run (ADiscrete discrete) (call true true true) sampled.

(** An environment that counts: the seed is the first count, every step
    adds one and pays the reward 1, and the episode is done at count 3. *)
#[export] Instance counting : Env := {|
  env_state := Z;
  env_reset := λ seed, (seed, [SLit (inject_Z seed)]);
  env_step := λ n _,
    let n' := (n + 1)%Z in
    (n', ([SLit (inject_Z n')], SLit 1, (3 <=? n')%Z, false));
|}.

Definition two_envs : NoAutoResetGymAgent.t :=
  {| NoAutoResetGymAgent.n_envs := 2; NoAutoResetGymAgent.seed := 0 |}.

Definition eval_agent : agent := ev_agent two_envs (ADiscrete discrete).

(** The first training segment of three steps and the one after it. *)
Definition epoch0 : world := (first_segment eval_agent 3 (empty_world 0)).2.

Definition epoch1 : world := (next_segment eval_agent 3 epoch0).2.

(** The greedy rollout of ten steps from an empty workspace. *)
Definition greedy (g : generator) : result unit * world :=
  rollout two_envs (ADiscrete discrete) eval_options 10 ∅ g.

(** The evaluation rollout, which is over after the step at time 3. *)
Definition evaluated : world :=
  (rollout two_envs (ADiscrete discrete) eval_options 4 ∅ 0).2.

(** The scenario of the specification: two slots and three time steps;
    the second transition of slot 0 ends its episode, slot 1 never
    terminates. *)
Definition cfg : config :=
  {| discount_factor := 9 # 10; gae_coef := 1; clip_range_vf := 0 |}.

Definition reward : list (list Q) := [[1; 1]; [5; 1]; [0; 1]]%Q.

Definition v_value : list (list Q) := [[1; 2]; [3; 4]; [5; 6]]%Q.

Definition must_bootstrap : list (list bool) :=
  [[true; true]; [false; true]].

Definition done : list (list bool) :=
  [[false; false]; [false; false]; [true; false]].

Definition truncated : list (list bool) :=
  [[false; false]; [false; false]; [false; false]].
End Example.

(** ** More of [stochastic_actors.py] *)

(** The channels the agents of the file write. *)
Definition actor_channels : list string :=
  ["action"; "action_logprobs"; "entropy"; "logprob_predict"; "action_probs"].

Section Confined.
Context `{Torch}.

(** Whatever [m] returns, it changes no entry of the workspace other than
    the entries at time [t] of the actor channels, and no channel gets
    shorter. *)
Definition confined {A} (t : nat) (m : M A) : Prop :=
  ∀ s : state,
    (∀ c i, (c ∈ actor_channels → i ≠ t) →
            ws_get (m s).2.1 c i = ws_get s.1 c i) ∧
    (∀ c, time_size s.1 c ≤ time_size (m s).2.1 c).

End Confined.

Section Settled.
Context `{Torch}.

(** Channel [c] holds [x] at time [t] and every entry of the channel has
    the shape of [x]. *)
Definition settled (w : workspace) (c : string) (t : nat) (x : tensor)
  : Prop :=
  channel w c !! t = Some x ∧ forallb (same_shape x) (channel w c) = true.
End Settled.

(** ** [predict_action], the workspace-free entry point of the actors *)
Section PredictAction.
Context `{Torch}.

(** The columns of a [batch, features] tensor. *)
Definition columns {A} (v : list (list A)) : list (list A) :=
  (λ j, omap (λ row : list A, row !! j) v) <$> seq 0 (width v).

(** [scores.argmax(0)]: the row index of the largest score of each column;
    torch refuses to reduce an empty dimension. *)
Definition argmax0 (scores : list (list float)) : result (list Z) :=
  match scores with
  | [] => Err IndexError
  | _ => Ok (t_argmax <$> columns scores)
  end.

Definition DiscreteActor_predict_action
    (self : DiscreteActor.t) (obs : list (list float)) (stochastic : bool)
  : M tensor :=
  let scores := DiscreteActor.model self obs in
  if stochastic
  then let probs := t_softmax <$> scores in
       d <- lift (Categorical probs) ;;
       action <- draw (λ g, categorical_sample g d) ;;
       ret (TInt action)
  else action <- lift (argmax0 scores) ;;
       ret (TInt action).

Definition TunableVarianceContinuousActor_predict_action
    (self : TunableVarianceContinuousActor.t) (obs : list (list float))
    (stochastic : bool) : M tensor :=
  if stochastic
  then let mean := TunableVarianceContinuousActor.model self obs in
       s <- lift (TunableVarianceContinuousActor.std self) ;;
       scale <- lift (broadcast_vec mean s) ;;
       dist <- lift (Normal mean scale) ;;
       action <- draw (λ g, normal_sample g dist) ;;
       ret (TFloat2 action)
  else ret (TFloat2 (TunableVarianceContinuousActor.model self obs)).

Definition TunableVarianceContinuousActorExp_predict_action
    (self : TunableVarianceContinuousActorExp.t) (obs : list (list float))
    (stochastic : bool) : M tensor :=
  if stochastic
  then let mean := TunableVarianceContinuousActorExp.model self obs in
       let std := map2d (t_clamp (-20) 2)
                    (TunableVarianceContinuousActorExp.std_param self) in
       scale <- lift (broadcast_mat mean (map2d t_exp std)) ;;
       dist <- lift (Normal mean scale) ;;
       action <- draw (λ g, normal_sample g dist) ;;
       ret (TFloat2 action)
  else ret (TFloat2 (TunableVarianceContinuousActorExp.model self obs)).

Definition StateDependentVarianceContinuousActor_predict_action
    (self : StateDependentVarianceContinuousActor.t)
    (obs : list (list float)) (stochastic : bool) : M tensor :=
  let backbone_output :=
    StateDependentVarianceContinuousActor.backbone self obs in
  let mean :=
    StateDependentVarianceContinuousActor.last_mean_layer self
      backbone_output in
  let std_out :=
    StateDependentVarianceContinuousActor.last_std_layer self
      backbone_output in
  let std := map2d t_exp std_out in
  (if has_nan mean then raise AssertionError else ret tt) ;;;
  dist <- lift (Normal mean std) ;;
  action <- (if stochastic
             then draw (λ g, normal_sample g dist)
             else ret mean) ;;
  ret (TFloat2 action).

Definition ConstantVarianceContinuousActor_predict_action
    (self : ConstantVarianceContinuousActor.t) (obs : list (list float))
    (stochastic : bool) : M tensor :=
  let mean := ConstantVarianceContinuousActor.model self obs in
  dist <- lift (Normal mean
                  (map2d (λ _, ConstantVarianceContinuousActor.std_param)
                         mean)) ;;
  action <- (if stochastic
             then draw (λ g, normal_sample g dist)
             else ret mean) ;;
  ret (TFloat2 action).

Definition SquashedGaussianActor_predict_action
    (self : SquashedGaussianActor.t) (obs : list (list float))
    (stochastic : bool) : M tensor :=
  action_dist <- lift (SquashedGaussianActor.get_distribution self obs) ;;
  action <- (if stochastic
             then draw (λ g, squashed_sample g action_dist)
             else ret (squashed_mode <$> action_dist)) ;;
  ret (TFloat2 action).

(** [SquashedGaussianActor.test] *)
Definition SquashedGaussianActor_test
    (self : SquashedGaussianActor.t) (obs action : list (list float))
  : result (list float) :=
  rbind (SquashedGaussianActor.get_distribution self obs)
        (λ action_dist, Squashed_log_prob action_dist action).

(** The method of the classes that define it. *)
Definition predict_action (a : actor)
  : option (list (list float) → bool → M tensor) :=
  match a with
  | ABernoulli d => Some (BernoulliActor.predict_action d)
  | ADiscrete d => Some (DiscreteActor_predict_action d)
  | ATunable d => Some (TunableVarianceContinuousActor_predict_action d)
  | ATunableExp d => Some (TunableVarianceContinuousActorExp_predict_action d)
  | AStateDependent d =>
      Some (StateDependentVarianceContinuousActor_predict_action d)
  | AConstant d => Some (ConstantVarianceContinuousActor_predict_action d)
  | ASquashed d => Some (SquashedGaussianActor_predict_action d)
  | AActorAgent | AProbAgent _ | AActionAgent => None
  end.

(** The mean [StateDependentVarianceContinuousActor.predict_action]
    asserts on. *)
Definition asserted_mean (a : actor) (obs : list (list float))
  : list (list float) :=
  match a with
  | AStateDependent d =>
      StateDependentVarianceContinuousActor.last_mean_layer d
        (StateDependentVarianceContinuousActor.backbone d obs)
  | _ => []
  end.
End PredictAction.

(** ** The actor loss of [ppo_basic.py] *)
Section Losses.
Open Scope Q_scope.

(** [torch.min(a, b)], elementwise on two scalars. *)
Definition minimum (a b : Q) : Q := if Qle_bool a b then a else b.

(** [ppo_basic.py], [compute_actor_loss] *)
Definition PPO_compute_actor_loss (advantages ratio : list (list Q))
    (clip_range : Q) : Q :=
  let actor_loss_1 := zip_with (zip_with Qmult) advantages ratio in
  let actor_loss_2 :=
    zip_with (zip_with Qmult) advantages
      (map (map (clamp (1 - clip_range) (1 + clip_range))) ratio) in
  let actor_loss := mean (zip_with (zip_with minimum)
                            actor_loss_1 actor_loss_2) in
  actor_loss.
End Losses.

(** ** The bookkeeping of the training loops

    [run_a2c], [run_ppo] and [run_fqi] keep the same three counters; one
    pass of the loop body adds the steps of the epoch to [nb_steps] and,
    when more than [eval_interval] steps have passed since the last
    evaluation, evaluates the policy and saves it if it is the best so
    far.  The record also keeps what the loop leaves behind: the step
    count and mean reward of every evaluation it logged, and the mean
    rewards under which it saved a model. *)
Record progress : Type := {
  nb_steps : Z;
  tmp_steps : Z;
  best_reward : Q;
  logged : list (Z * Q);
  saved : list Q;
}.

(** [best_reward = -10e9] *)
Definition initial_best_reward : Q := - (10000000000 # 1).

Definition start : progress :=
  {| nb_steps := 0; tmp_steps := 0; best_reward := initial_best_reward;
     logged := []; saved := [] |}.

(** The end of one epoch that gathered [n] steps; [mean] is the mean
    reward the evaluation returns if it runs. *)
Definition end_of_epoch (eval_interval : Z) (save_best : bool)
    (p : progress) (e : Z * Q) : progress :=
  let '(n, mean) := e in
  let nb_steps' := (nb_steps p + n)%Z in
  if (eval_interval <? nb_steps' - tmp_steps p)%Z
  then
    if save_best && negb (Qle_bool mean (best_reward p))
    then {| nb_steps := nb_steps'; tmp_steps := nb_steps';
            best_reward := mean;
            logged := logged p ++ [(nb_steps', mean)];
            saved := saved p ++ [mean] |}
    else {| nb_steps := nb_steps'; tmp_steps := nb_steps';
            best_reward := best_reward p;
            logged := logged p ++ [(nb_steps', mean)];
            saved := saved p |}
  else {| nb_steps := nb_steps'; tmp_steps := tmp_steps p;
          best_reward := best_reward p;
          logged := logged p;
          saved := saved p |}.

(** The loop over the epochs. *)
Definition training_loop (eval_interval : Z) (save_best : bool)
    (epochs : list (Z * Q)) : progress :=
  fold_left (end_of_epoch eval_interval save_best) epochs start.

(** ** Further concrete agents, calls and tensors *)
Module Cases.
Import Sym.

(** A probability head whose scores are the observation itself. *)
Definition prob : ProbAgent.t := {| ProbAgent.model := λ x, x |}.

(** A squashed Gaussian head whose mean and log-scale are the
    observation. *)
Definition squashed : SquashedGaussianActor.t :=
  {| SquashedGaussianActor.backbone := λ x, x;
     SquashedGaussianActor.last_mean_layer := λ x, x;
     SquashedGaussianActor.last_std_layer := λ x, x |}.

Definition greedy_call : options := Example.call false false true.

Definition start_state (g : generator) : state := (Example.fresh, g).


(** The states left by a greedy call of each agent used below. *)
Definition after (a : actor) : state :=
  (forward a 0 greedy_call (start_state 0)).2.

(** The constant-variance actor re-scoring the action it stored. *)
Definition rescored : state :=
  (forward (AConstant Example.constant) 0 (Example.call false true false)
     (after (AConstant Example.constant))).2.

(** [ProbAgent] followed by [ActionAgent]. *)
Definition selected : state :=
  (forward AActionAgent 0 greedy_call (after (AProbAgent prob))).2.

(** One row of two transitions for the PPO objective. *)
Definition ratio : list (list Q) := [[3 # 2; 1 # 2]]%Q.

Definition ratio_near_one : list (list Q) := [[1; 11 # 10]]%Q.


Definition losses : list (list Q) := [[-1; -2]]%Q.

Definition mixed : list (list Q) := [[1; -2]]%Q.

Definition clip_range : Q := 1 # 5.

(** A configuration that clips the values, and a transition view of two
    transitions. *)
Definition clipping : config :=
  {| discount_factor := 9 # 10; gae_coef := 1; clip_range_vf := 1 # 5 |}.

Definition v_value : pair_tensor Q := ([1; 2], [3; 4])%Q.

Definition reward : pair_tensor Q := ([0; 0], [1; 1])%Q.

Definition done : pair_tensor bool := ([false; false], [true; false]).

Definition truncated : pair_tensor bool := ([false; false], [false; false]).

(** Three epochs of sixteen steps each, with the mean rewards their
    evaluations would return. *)
Definition epochs : list (Z * Q) := [(16%Z, 5%Q); (16%Z, 7%Q); (16%Z, 6%Q)].
End Cases.

(** * Properties *)

(** ** The workspace and the agent monad *)
Section WorkspaceFacts.
Context `{Torch}.

Lemma ws_set_inv (w w' : workspace) c t x :
  ws_set w c t x = Ok w' →
  ∃ l', w' = <[c := l']> w ∧ t ≤ length (channel w c) ∧
        l' !! t = Some x ∧
        ∀ i, i ≠ t → l' !! i = channel w c !! i.
Proof.
  unfold ws_set. intros Hs.
  destruct (decide (length (channel w c) < t)); [done|].
  destruct (negb _); [done|].
  destruct (decide (t = length (channel w c))) as [->|Hne];
    injection Hs as <-.
  - eexists; split; [done|]. split; [lia|]. split.
    + by rewrite lookup_app_r, Nat.sub_diag by lia.
    + intros i Hi. destruct (decide (i < length (channel w c))).
      * by rewrite lookup_app_l.
      * rewrite !lookup_ge_None_2; [done|lia|].
        rewrite length_app; simpl; lia.
  - eexists; split; [done|]. split; [lia|]. split.
    + apply list_lookup_insert_eq. lia.
    + intros i Hi. by apply list_lookup_insert_ne.
Qed.

Lemma channel_insert (w : workspace) c l :
  channel (<[c := l]> w) c = l.
Proof. unfold channel. by rewrite lookup_insert_eq. Qed.

Lemma ws_get_set (w w' : workspace) c t x :
  ws_set w c t x = Ok w' → ws_get w' c t = Ok x.
Proof.
  intros (l' & -> & _ & Hl & _)%ws_set_inv.
  unfold ws_get. by rewrite channel_insert, Hl.
Qed.

Lemma ws_set_other (w w' : workspace) c c' t x :
  ws_set w c t x = Ok w' → c ≠ c' → w' !! c' = w !! c'.
Proof.
  intros (l' & -> & _)%ws_set_inv Hne. by rewrite lookup_insert_ne.
Qed.

Lemma ws_get_set_other (w w' : workspace) c c' t i x :
  ws_set w c t x = Ok w' → c ≠ c' → ws_get w' c' i = ws_get w c' i.
Proof.
  intros Hs Hne. unfold ws_get, channel.
  by rewrite (ws_set_other _ _ _ _ _ _ Hs Hne).
Qed.

Lemma ws_get_set_time (w w' : workspace) c c' t i x :
  ws_set w c t x = Ok w' → i ≠ t → ws_get w' c' i = ws_get w c' i.
Proof.
  intros Hs Hne. destruct (decide (c = c')) as [<-|Hc].
  - apply ws_set_inv in Hs as (l' & -> & _ & _ & Hl).
    unfold ws_get. by rewrite channel_insert, Hl.
  - by eapply ws_get_set_other.
Qed.

Lemma ws_set_length (w w' : workspace) c t x :
  ws_set w c t x = Ok w' → length (channel w c) = t →
  length (channel w' c) = S t.
Proof.
  unfold ws_set. intros Hs Hlen.
  destruct (decide _); [done|]. destruct (negb _); [done|].
  destruct (decide _); [|done]. injection Hs as <-.
  rewrite channel_insert, length_app. simpl. lia.
Qed.
End WorkspaceFacts.

Section MonadFacts.
Context `{Torch}.

Lemma rbind_ok {A B} (r : result A) (k : A → result B) b :
  rbind r k = Ok b → ∃ a, r = Ok a ∧ k a = Ok b.
Proof. destruct r; simpl; [eauto|done]. Qed.

Lemma bind_ok {A B} (m : M A) (k : A → M B) s b s' :
  bind m k s = (Ok b, s') →
  ∃ a s1, m s = (Ok a, s1) ∧ k a s1 = (Ok b, s').
Proof.
  unfold bind. destruct (m s) as [[a|e] s1]; [eauto|done].
Qed.

Lemma ret_ok {A} (a b : A) s s' :
  ret a s = (Ok b, s') → b = a ∧ s' = s.
Proof. unfold ret. by intros [= -> ->]. Qed.

Lemma lift_ok {A} (r : result A) a s s' :
  lift r s = (Ok a, s') → r = Ok a ∧ s' = s.
Proof. unfold lift. by intros [= -> ->]. Qed.

Lemma get_ok c t x s s' :
  get c t s = (Ok x, s') → ws_get s.1 c t = Ok x ∧ s' = s.
Proof. unfold get. by intros [= -> ->]. Qed.

Lemma set_ok c t x u s s' :
  set c t x s = (Ok u, s') →
  ∃ w, ws_set s.1 c t x = Ok w ∧ s' = (w, s.2).
Proof.
  unfold set. destruct (ws_set _ _ _ _) as [w|e]; [|done].
  intros [= _ <-]. eauto.
Qed.

Lemma draw_ok {A} (f : generator → A * generator) a s s' :
  draw f s = (Ok a, s') → s' = (s.1, (f s.2).2) ∧ a = (f s.2).1.
Proof.
  unfold draw. destruct (f s.2) as [a' g]. by intros [= <- <-].
Qed.

(** A run that is known to succeed, paired with the state it reaches. *)
Lemma run_result {A B} (r : A * B) (a : A) : r.1 = a → r = (a, r.2).
Proof. intros <-. by destruct r. Qed.
End MonadFacts.

(** Inversion of a successful run, one monadic step at a time. *)
Ltac run_step :=
  match goal with
  | H : bind _ _ _ = (Ok _, _) |- _ =>
      apply bind_ok in H; destruct H as (? & ? & ? & H); cbv beta zeta in H
  | H : ret _ _ = (Ok _, _) |- _ =>
      apply ret_ok in H; destruct H as [? ?]; subst
  | H : lift _ _ = (Ok _, _) |- _ =>
      apply lift_ok in H; destruct H as [H ?]; subst
  | H : get _ _ _ = (Ok _, _) |- _ =>
      apply get_ok in H; destruct H as [H ?]; subst
  | H : set _ _ _ _ = (Ok _, _) |- _ =>
      apply set_ok in H; destruct H as (? & H & ?); subst
  | H : draw _ _ = (Ok _, _) |- _ =>
      apply draw_ok in H; destruct H as [? ?]; subst
  | H : raise _ _ = (Ok _, _) |- _ => discriminate H
  | H : when ?b _ _ = (Ok _, _) |- _ =>
      let E := fresh "Hflag" in destruct b eqn:E; unfold when in H
  | H : (if ?b then _ else _) _ = (Ok _, _) |- _ =>
      let E := fresh "Hflag" in destruct b eqn:E
  | H : (match ?x with Some _ => _ | None => _ end) _ = (Ok _, _) |- _ =>
      let E := fresh "Hopt" in destruct x eqn:E
  end.

Ltac run_inv := repeat run_step; simpl in *.

(** Push workspace reads back through the writes of a run. *)
Ltac ws_norm :=
  repeat match goal with
  | Hs : ws_set ?w ?c ?t ?x = Ok ?w', H : context [ws_get ?w' ?c' ?i] |- _ =>
      rewrite (ws_get_set_other _ _ _ c' _ i _ Hs) in H by done
  | Hs : ws_set ?w ?c ?t ?x = Ok ?w' |- context [ws_get ?w' ?c' ?i] =>
      first [ rewrite (ws_get_set _ _ _ _ _ Hs)
            | rewrite (ws_get_set_other _ _ _ c' _ i _ Hs) by done ]
  | Hs : ws_set ?w ?c ?t ?x = Ok ?w' |- context [?w' !! ?c'] =>
      rewrite (ws_set_other _ _ _ c' _ _ Hs) by done
  end.

Ltac ws_time :=
  repeat match goal with
  | Hs : ws_set ?w _ ?t _ = Ok ?w' |- context [ws_get ?w' ?c ?i] =>
      rewrite (ws_get_set_time _ _ _ c _ i _ Hs) by done
  end.

(** Replace the results a run is known to have produced. *)
Ltac use_results :=
  simpl;
  repeat match goal with
  | H : ?r = Ok _ |- context [?r] => rewrite H; simpl
  | H : ?r = Some _ |- context [?r] => rewrite H; simpl
  | H : ?r = None |- context [?r] => rewrite H; simpl
  end.

Ltac unfold_forward H :=
  simpl in H;
  unfold ActorAgent.forward, BernoulliActor.forward, ProbAgent.forward,
    ActionAgent.forward, DiscreteActor.forward,
    TunableVarianceContinuousActor.forward,
    TunableVarianceContinuousActorExp.forward,
    StateDependentVarianceContinuousActor.forward,
    ConstantVarianceContinuousActor.forward,
    SquashedGaussianActor.forward in H.

Ltac unfold_distribution :=
  unfold TunableVarianceContinuousActor.get_distribution,
    StateDependentVarianceContinuousActor.get_distribution,
    ConstantVarianceContinuousActor.get_distribution.

Ltac in_env :=
  unfold env_channels;
  repeat first [apply list_elem_of_here | apply list_elem_of_further].

(** ** The actors: re-scoring, entropy and log-probabilities *)
Section ActorFacts.
Context `{Torch}.

(** What a call with [predict_proba] set does, for the classes that have
    the parameter. *)
Lemma forward_predict_proba
    (a : actor) (t : nat) (o : options) (s s' : state) :
  takes_predict_proba a = true →
  predict_proba o = true →
  forward a t o s = (Ok tt, s') →
  ∃ x obs act lp,
    observed a o s.1 t = Ok x ∧ as_float2 x = Ok obs ∧
    ws_get s.1 "action" t = Ok act ∧
    log_prob a obs act = Ok lp ∧
    ws_get s'.1 "logprob_predict" t = Ok lp ∧
    s'.2 = s.2 ∧
    s'.1 !! "action" = s.1 !! "action" ∧
    s'.1 !! "action_logprobs" = s.1 !! "action_logprobs".
Proof.
  intros Ha Hp Hrun.
  destruct a; try discriminate Ha; unfold_forward Hrun;
    rewrite Hp in Hrun; run_inv; ws_norm;
    eexists _, _, _, _; split_and!; eauto;
    unfold_distribution; use_results; first [done | congruence].
Qed.

(** What a call without [predict_proba] stores, for the classes that
    compute the stored and the re-scored log-probability alike. *)
Lemma forward_stores_action
    (a : actor) (t : nat) (o : options) (s s' : state) :
  rescoring_actor a = true →
  predict_proba o = false →
  forward a t o s = (Ok tt, s') →
  ∃ x obs act lp,
    observed a o s.1 t = Ok x ∧ as_float2 x = Ok obs ∧
    ws_get s'.1 "action" t = Ok act ∧
    log_prob a obs act = Ok lp ∧
    ws_get s'.1 "action_logprobs" t = Ok lp ∧
    s'.1 !! "env/env_obs" = s.1 !! "env/env_obs".
Proof.
  intros Ha Hp Hrun.
  destruct a; try discriminate Ha; unfold_forward Hrun;
    rewrite Hp in Hrun; run_inv; ws_norm;
    eexists _, _, _, _; split_and!; eauto;
    unfold_distribution; use_results; first [done | congruence].
Qed.

Lemma observed_env (a : actor) (o : options) (w w' : workspace) t :
  w' !! "env/env_obs" = w !! "env/env_obs" →
  observed a o w' t = observed a o w t.
Proof.
  intros Hw. unfold observed, ws_get, channel. by rewrite Hw.
Qed.

(** C4, as amended.  For every actor class whose [forward] takes the
    [predict_proba] option (DiscreteActor, the three Gaussian actors with
    tunable, exponentiated and state-dependent variance, the
    constant-variance actor and SquashedGaussianActor), a successful
    [forward(t, predict_proba=True)] reads the action stored at [t], writes
    the log-probability of that action under the actor's current
    distribution to [logprob_predict] at [t], leaves the random generator
    untouched, and leaves the [action] and [action_logprobs] channels as
    they were. *)
Theorem predict_proba_rescores_stored_action
    (a : actor) (t : nat) (o : options) (s s' : state) :
  takes_predict_proba a = true →
  predict_proba o = true →
  forward a t o s = (Ok tt, s') →
  ∃ x obs act lp,
    observed a o s.1 t = Ok x ∧ as_float2 x = Ok obs ∧
    ws_get s.1 "action" t = Ok act ∧
    log_prob a obs act = Ok lp ∧
    ws_get s'.1 "logprob_predict" t = Ok lp ∧
    s'.2 = s.2 ∧
    s'.1 !! "action" = s.1 !! "action" ∧
    s'.1 !! "action_logprobs" = s.1 !! "action_logprobs".
Proof. apply forward_predict_proba. Qed.

(** C9, as amended.  For DiscreteActor, the Gaussian actors with tunable,
    exponentiated and state-dependent variance and SquashedGaussianActor,
    with fixed parameters: when [forward] at [t] first stores an action
    ([predict_proba=False]) and a second call at [t] with
    [predict_proba=True] and the same [observation] argument succeeds, the
    tensor the second call writes to [logprob_predict] equals, in value and
    in shape, the tensor the first call wrote to [action_logprobs]. *)
Theorem rescoring_round_trip
    (a : actor) (t : nat) (o1 o2 : options) (s s1 s2 : state) :
  rescoring_actor a = true →
  predict_proba o1 = false →
  predict_proba o2 = true →
  observation o2 = observation o1 →
  forward a t o1 s = (Ok tt, s1) →
  forward a t o2 s1 = (Ok tt, s2) →
  ∃ lp, ws_get s1.1 "action_logprobs" t = Ok lp ∧
        ws_get s2.1 "logprob_predict" t = Ok lp.
Proof.
  intros Ha Hp1 Hp2 Ho Hrun1 Hrun2.
  destruct (forward_stores_action _ _ _ _ _ Ha Hp1 Hrun1)
    as (x & obs & act & lp & Hx & Hobs & Hact & Hlp & Hget & Henv).
  assert (Hb : takes_predict_proba a = true) by (by destruct a).
  destruct (forward_predict_proba _ _ _ _ _ Hb Hp2 Hrun2)
    as (x' & obs' & act' & lp' & Hx' & Hobs' & Hact' & Hlp' & Hget' & _).
  exists lp. split; [done|].
  rewrite Hget'. f_equal.
  assert (x' = x) as ->.
  { rewrite (observed_env _ _ _ _ _ Henv) in Hx'.
    unfold observed in *. rewrite Ho in Hx'. congruence. }
  congruence.
Qed.

(** C7, as amended.  For the actor classes whose [forward] tests the
    [compute_entropy] option (DiscreteActor and the Gaussian actors with
    tunable, exponentiated and state-dependent variance), a successful call
    at [t] writes the entropy of the policy distribution to the [entropy]
    channel at [t] when the option is true and leaves the [entropy] channel
    as it was when the option is false. *)
Theorem entropy_written_iff_requested
    (a : actor) (t : nat) (o : options) (s s' : state) :
  tests_compute_entropy a = true →
  forward a t o s = (Ok tt, s') →
  if compute_entropy o
  then ∃ x obs e,
         observed a o s.1 t = Ok x ∧ as_float2 x = Ok obs ∧
         entropy_of a obs = Ok e ∧ ws_get s'.1 "entropy" t = Ok e
  else s'.1 !! "entropy" = s.1 !! "entropy".
Proof.
  intros Ha Hrun.
  destruct a; try discriminate Ha; unfold_forward Hrun;
    run_inv; ws_norm; rewrite ?Hflag; try done;
    eexists _, _, _; split_and!; eauto;
    unfold_distribution; use_results; first [done | congruence].
Qed.
End ActorFacts.

Lemma predict_proba_rescores_stored_action_witness :
  ∃ x obs act lp,
    observed (ADiscrete Example.discrete) (Example.call true true true)
             Example.sampled.1 0 = Ok x ∧
    as_float2 x = Ok obs ∧
    ws_get Example.sampled.1 "action" 0 = Ok act ∧
    log_prob (ADiscrete Example.discrete) obs act = Ok lp ∧
    ws_get Example.rescored.1 "logprob_predict" 0 = Ok lp ∧
    Example.rescored.2 = Example.sampled.2 ∧
    Example.rescored.1 !! "action" = Example.sampled.1 !! "action" ∧
    Example.rescored.1 !! "action_logprobs"
      = Example.sampled.1 !! "action_logprobs".
Proof.
  apply (predict_proba_rescores_stored_action
           (ADiscrete Example.discrete) 0 (Example.call true true true)
           Example.sampled Example.rescored);
    [reflexivity | reflexivity | apply run_result; vm_compute; reflexivity].
Defined.

(** [BernoulliActor.forward] has no [predict_proba] parameter: called with
    the flag set it thresholds the mean again (7/10 is not below 1/2),
    overwrites the stored action, writes [action_logprobs] and leaves
    [logprob_predict] unset; with [stochastic] set as well it draws the new
    action from the generator. *)
Lemma bernoulli_ignores_predict_proba :
  let s : state := (Example.acted, 0) in
  let r := forward (ABernoulli Example.bernoulli) 0
             (Example.call false true false) s in
  let r' := forward (ABernoulli Example.bernoulli) 0
              (Example.call true true false) s in
  r.1 = Ok tt ∧
  ws_get s.1 "action" 0 = Ok (TInt [1%Z; 1%Z]) ∧
  ws_get r.2.1 "action" 0 = Ok (TBool [false; false]) ∧
  r.2.1 !! "action" ≠ s.1 !! "action" ∧
  r.2.1 !! "action_logprobs" ≠ s.1 !! "action_logprobs" ∧
  ws_get r.2.1 "logprob_predict" 0 = Err MissingEntry ∧
  r'.1 = Ok tt ∧
  r'.2.2 ≠ s.2 ∧
  r'.2.1 !! "action" ≠ s.1 !! "action" ∧
  ws_get r'.2.1 "logprob_predict" 0 = Err MissingEntry.
Proof. vm_compute. split_and!; done. Qed.

Lemma rescoring_round_trip_witness :
  ∃ lp, ws_get Example.sampled.1 "action_logprobs" 0 = Ok lp ∧
        ws_get Example.rescored.1 "logprob_predict" 0 = Ok lp.
Proof.
  apply (rescoring_round_trip
           (ADiscrete Example.discrete) 0
           (Example.call true false true) (Example.call true true true)
           (Example.fresh, 0) Example.sampled Example.rescored);
    [reflexivity | reflexivity | reflexivity | reflexivity
    | apply run_result; vm_compute; reflexivity
    | apply run_result; vm_compute; reflexivity].
Defined.

(** A second call of [BernoulliActor.forward] with [predict_proba] set
    leaves [logprob_predict] unset, so nothing equals the stored
    [action_logprobs]. *)
Lemma bernoulli_never_rescores :
  let a := ABernoulli Example.bernoulli in
  let r1 := forward a 0 (Example.call false false false) (Example.fresh, 0) in
  let r2 := forward a 0 (Example.call false true false) r1.2 in
  r1.1 = Ok tt ∧
  r2.1 = Ok tt ∧
  is_ok (ws_get r1.2.1 "action_logprobs" 0) = true ∧
  ws_get r2.2.1 "logprob_predict" 0 = Err MissingEntry.
Proof. vm_compute. split_and!; done. Qed.

(** [ConstantVarianceContinuousActor.forward] sums the log-probability over
    the action dimension when it stores an action and not when it re-scores
    one: the two tensors differ in rank. *)
Lemma constant_variance_rescoring_rank :
  let a := AConstant Example.constant in
  let r1 := forward a 0 (Example.call false false false) (Example.fresh, 0) in
  let r2 := forward a 0 (Example.call false true false) r1.2 in
  r1.1 = Ok tt ∧
  r2.1 = Ok tt ∧
  shape (H:=Sym.torch) <$> (channel r1.2.1 "action_logprobs" !! 0)
    = Some [2] ∧
  shape (H:=Sym.torch) <$> (channel r2.2.1 "logprob_predict" !! 0)
    = Some [2; 2].
Proof. vm_compute. split_and!; done. Qed.

Lemma entropy_written_iff_requested_witness :
  if compute_entropy (Example.call true false true)
  then ∃ x obs e,
         observed (ADiscrete Example.discrete) (Example.call true false true)
                  Example.fresh 0 = Ok x ∧
         as_float2 x = Ok obs ∧
         entropy_of (ADiscrete Example.discrete) obs = Ok e ∧
         ws_get Example.sampled.1 "entropy" 0 = Ok e
  else Example.sampled.1 !! "entropy" = Example.fresh !! "entropy".
Proof.
  apply (entropy_written_iff_requested
           (ADiscrete Example.discrete) 0 (Example.call true false true)
           (Example.fresh, 0) Example.sampled);
    [reflexivity | apply run_result; vm_compute; reflexivity].
Defined.

(** [BernoulliActor.forward] has no [compute_entropy] parameter and records
    the entropy on every call. *)
Lemma bernoulli_always_writes_entropy :
  let o := Example.call false false false in
  let r := forward (ABernoulli Example.bernoulli) 0 o (Example.fresh, 0) in
  compute_entropy o = false ∧
  r.1 = Ok tt ∧
  ws_get Example.fresh "entropy" 0 = Err MissingEntry ∧
  is_ok (ws_get r.2.1 "entropy" 0) = true.
Proof. vm_compute. split_and!; done. Qed.

(** ** BernoulliActor in greedy mode, and NaN probabilities *)
Section BernoulliFacts.
Context `{Torch}.

Lemma rmap_lookup {A B} (f : A → result B) (l : list A) (ys : list B) :
  rmap f l = Ok ys →
  ∀ i y, ys !! i = Some y ↔ ∃ x, l !! i = Some x ∧ f x = Ok y.
Proof.
  revert ys. induction l as [|x l IH]; intros ys Hr i y; simpl in Hr.
  - injection Hr as <-. split; [done|]. by intros (? & ? & _).
  - apply rbind_ok in Hr as (y0 & Hy0 & Hr).
    apply rbind_ok in Hr as (ys0 & Hys0 & [= <-]).
    destruct i as [|i]; simpl.
    + split.
      * intros [= <-]. eauto.
      * intros (x' & [= <-] & Hx). congruence.
    + by apply IH.
Qed.

Lemma squeeze_last_lookup {A} (v : list (list A)) (a : list A) :
  squeeze_last v = Ok a →
  ∀ i b, a !! i = Some b ↔ v !! i = Some [b].
Proof.
  intros Hs i b. rewrite (rmap_lookup _ _ _ Hs). split.
  - intros (row & Hrow & Hb). destruct row as [|b' [|??]]; try done.
    by injection Hb as ->.
  - intros Hv. eauto.
Qed.

Lemma map2d_lookup {A B} (f : A → B) (v : list (list A)) i b :
  map2d f v !! i = Some [b] ↔ ∃ m, v !! i = Some [m] ∧ b = f m.
Proof.
  unfold map2d. rewrite list_lookup_fmap. split.
  - destruct (v !! i) as [row|]; [|done]. simpl.
    destruct row as [|m [|??]]; try done. intros [= <-]. eauto.
  - intros (m & -> & ->). done.
Qed.

(** C10.  In greedy mode ([stochastic=False]) the action BernoulliActor
    stores for a slot is [true] exactly when the mean the model predicts
    for that slot is strictly below 0.5 (the action is [mean.lt(0.5)]), and
    [predict_action] with [stochastic=False] returns, for the same
    observation and parameters, the same booleans: the stored action is
    its result with the trailing axis of size one squeezed. *)
Theorem bernoulli_greedy_action
    (self : BernoulliActor.t) (t : nat) (o : options) (s s' : state)
    (obs : list (list float)) :
  stochastic o = false →
  ws_get s.1 "env/env_obs" t = Ok (TFloat2 obs) →
  BernoulliActor.forward self t o s = (Ok tt, s') →
  ∃ a p,
    ws_get s'.1 "action" t = Ok (TBool a) ∧
    (∀ i b, a !! i = Some b ↔
            ∃ m, BernoulliActor.model self obs !! i = Some [m] ∧
                 b = t_lt m BernoulliActor.half) ∧
    BernoulliActor.predict_action self obs false s = (Ok (TBool2 p), s) ∧
    squeeze_last p = Ok a.
Proof.
  intros Hsto Hobs Hrun. unfold BernoulliActor.forward in Hrun.
  rewrite Hsto in Hrun. run_inv.
  match goal with
  | Hx : ws_get _ "env/env_obs" _ = Ok ?x, Hf : as_float2 ?x = Ok _ |- _ =>
      rewrite Hobs in Hx; injection Hx as <-; injection Hf as <-
  end.
  match goal with
  | Hsq : squeeze_last _ = Ok _, Hd : Bernoulli _ = Ok _ |- _ =>
      pose proof (squeeze_last_lookup _ _ Hsq) as Hlook;
      eexists _, _; split_and!; [by ws_norm | | | exact Hsq]
  end.
  - intros i b. rewrite Hlook. apply map2d_lookup.
  - unfold BernoulliActor.predict_action, bind, lift. by use_results.
Qed.
End BernoulliFacts.

Section NaNFacts.
Context `{Torch}.

(** [ProbAgent.forward] asserts on its probabilities before any write. *)
Lemma prob_agent_raises_on_nan
    (self : ProbAgent.t) (t : nat) (o : options) (s : state)
    (obs : list (list float)) :
  ws_get s.1 "env/env_obs" t = Ok (TFloat2 obs) →
  has_nan (t_softmax <$> ProbAgent.model self obs) = true →
  ProbAgent.forward self t o s = (Err AssertionError, s).
Proof.
  intros Hobs Hnan. unfold ProbAgent.forward, bind, get, lift.
  rewrite Hobs. simpl. by rewrite Hnan.
Qed.
End NaNFacts.

(** C8, at the failing input.  [DiscreteActor.forward], called as the
    evaluation rollout calls it on a network whose scores are NaN, raises
    nothing: its probabilities contain NaN, the call succeeds and the NaN
    log-probabilities are written to [action_logprobs]. *)
Theorem discrete_actor_stores_nan :
  let s := (Example.fresh, 0) in
  let r := DiscreteActor.forward Example.diverged 0
             (Example.call false false false) s in
  has_nan (t_softmax <$> DiscreteActor.model Example.diverged
                           Example.features) = true ∧
  r.1 = Ok tt ∧
  ∃ x, ws_get r.2.1 "action_logprobs" 0 = Ok x ∧ tensor_has_nan x = true.
Proof. vm_compute. eauto. Qed.

Lemma bernoulli_greedy_action_witness :
  ∃ a p,
    ws_get (Example.run (ABernoulli Example.bernoulli)
              (Example.call false false false) (Example.fresh, 0)).1
           "action" 0 = Ok (TBool a) ∧
    (∀ i b, a !! i = Some b ↔
            ∃ m, BernoulliActor.model Example.bernoulli Example.features !! i
                   = Some [m] ∧
                 b = t_lt m BernoulliActor.half) ∧
    BernoulliActor.predict_action Example.bernoulli Example.features false
      (Example.fresh, 0) = (Ok (TBool2 p), (Example.fresh, 0)) ∧
    squeeze_last p = Ok a.
Proof.
  apply (bernoulli_greedy_action Example.bernoulli 0
           (Example.call false false false) (Example.fresh, 0)
           (Example.run (ABernoulli Example.bernoulli)
              (Example.call false false false) (Example.fresh, 0))
           Example.features);
    [reflexivity | reflexivity | apply run_result; vm_compute; reflexivity].
Defined.

(** ** The bootstrap mask *)
Section MaskFacts.
Lemma zip_exact_lookup {A B C} (f : A → B → C) l k r i a b :
  zip_exact f l k = Ok r → l !! i = Some a → k !! i = Some b →
  r !! i = Some (f a b).
Proof.
  unfold zip_exact. destruct (decide _); [|done]. intros [= <-] Ha Hb.
  by rewrite lookup_zip_with, Ha, Hb.
Qed.

Lemma mask_lookup (done truncated : pair_tensor bool) mb i d tr :
  logical_or (logical_not done.2) truncated.2 = Ok mb →
  done.2 !! i = Some d → truncated.2 !! i = Some tr →
  mb !! i = Some (negb d || tr).
Proof.
  intros Hmb Hd Htr. eapply zip_exact_lookup; [done| |done].
  unfold logical_not. by rewrite list_lookup_fmap, Hd.
Qed.
End MaskFacts.

(** C2.  For every transition [i] of the view [get_transitions] produces,
    the mask the A2C, PPO and FQI loops compute is [(not done) or
    truncated], where [done] and [truncated] are the flags of the step the
    transition arrives at (entry 1 of the pair axis); that mask is the one
    handed to the advantage computation. *)
Theorem must_bootstrap_is_not_done_or_truncated
    (done truncated : list (list bool)) (i : nat) (d tr : bool) :
  let dn := get_transitions done in
  let tc := get_transitions truncated in
  concat (tail done) !! i = Some d →
  concat (tail truncated) !! i = Some tr →
  length (concat (tail done)) = length (concat (tail truncated)) →
  ∃ mb,
    A2C.must_bootstrap dn tc = Ok mb ∧
    PPO.must_bootstrap dn tc = Ok mb ∧
    FQI.must_bootstrap dn tc = Ok mb ∧
    mb !! i = Some (negb d || tr) ∧
    (∀ cfg v r, A2C.losses cfg v dn tc r
                = Ok (compute_advantages_loss cfg (rows r) [mb] (rows v))) ∧
    (∀ cfg v r, ∃ v', PPO.losses cfg v dn tc r
                = Ok (compute_advantage_loss cfg (rows r) [mb] v')).
Proof.
  intros dn tc Hd Htr Hlen.
  assert (∃ mb, logical_or (logical_not dn.2) tc.2 = Ok mb) as [mb Hmb].
  { unfold logical_or, zip_exact, logical_not. simpl.
    rewrite length_fmap. destruct (decide _); [eauto|done]. }
  exists mb. unfold A2C.losses, PPO.losses, A2C.must_bootstrap,
    PPO.must_bootstrap, FQI.must_bootstrap. rewrite Hmb.
  split_and!; try done; [by eapply mask_lookup|]. intros. simpl. eauto.
Qed.

Lemma must_bootstrap_is_not_done_or_truncated_witness :
  let dn := get_transitions Example.done in
  let tc := get_transitions Example.truncated in
  ∃ mb,
    A2C.must_bootstrap dn tc = Ok mb ∧
    PPO.must_bootstrap dn tc = Ok mb ∧
    FQI.must_bootstrap dn tc = Ok mb ∧
    mb !! 2 = Some (negb true || false) ∧
    (∀ cfg v r, A2C.losses cfg v dn tc r
                = Ok (compute_advantages_loss cfg (rows r) [mb] (rows v))) ∧
    (∀ cfg v r, ∃ v', PPO.losses cfg v dn tc r
                = Ok (compute_advantage_loss cfg (rows r) [mb] v')).
Proof.
  apply (must_bootstrap_is_not_done_or_truncated
           Example.done Example.truncated 2 true false); reflexivity.
Defined.

(** ** The advantage estimator *)
Section GaeFacts.
Open Scope Q_scope.

Lemma rect_row {A} n b (x : list (list A)) t (d : list A) :
  rect n b x → (t < n)%nat → length (nth t x d) = b.
Proof.
  intros [Hn Hall] Ht. rewrite Forall_lookup in Hall.
  destruct (x !! t) as [row|] eqn:Hrow.
  - rewrite (nth_lookup_Some _ _ _ _ Hrow). eauto.
  - apply lookup_ge_None in Hrow. lia.
Qed.

Lemma nth_zip_with {A B C} (f : A → B → C) l k i da db dc :
  (i < length l)%nat → (i < length k)%nat →
  nth i (zip_with f l k) dc = f (nth i l da) (nth i k db).
Proof.
  intros Hl Hk.
  destruct (lookup_lt_is_Some_2 l i Hl) as [a Ha].
  destruct (lookup_lt_is_Some_2 k i Hk) as [b Hb].
  rewrite (nth_lookup_Some _ _ da _ Ha), (nth_lookup_Some _ _ db _ Hb).
  apply nth_lookup_Some. by rewrite lookup_zip_with, Ha, Hb.
Qed.

Lemma nth_zip {A B} (l : list A) (k : list B) i da db :
  (i < length l)%nat → (i < length k)%nat →
  nth i (zip l k) (da, db) = (nth i l da, nth i k db).
Proof. apply nth_zip_with. Qed.

Lemma td_row_nth γ r v1 m v0 b n :
  length r = n → length v1 = n → length m = n → length v0 = n →
  (b < n)%nat →
  nth b (td_row γ r v1 m v0) 0
  = nth b r 0 + γ * nth b v1 0 * b2q (nth b m false) - nth b v0 0.
Proof.
  intros Hr Hv1 Hm Hv0 Hb. unfold td_row.
  rewrite (nth_zip_with _ _ _ _ (0, 0) (false, 0))
    by (rewrite length_zip_with; lia).
  rewrite !nth_zip by lia. done.
Qed.

Lemma td_row_length γ r v1 m v0 n :
  length r = n → length v1 = n → length m = n → length v0 = n →
  length (td_row γ r v1 m v0) = n.
Proof. intros. unfold td_row. rewrite !length_zip_with. lia. Qed.

Lemma acc_row_nth γ lam δ m a1 b n :
  length δ = n → length m = n → length a1 = n → (b < n)%nat →
  nth b (acc_row γ lam δ m a1) 0
  = nth b δ 0 + γ * lam * b2q (nth b m false) * nth b a1 0.
Proof.
  intros Hd Hm Ha Hb. unfold acc_row.
  rewrite (nth_zip_with _ _ _ _ (0, false) 0)
    by (rewrite ?length_zip_with; lia).
  rewrite nth_zip by lia. done.
Qed.

Lemma acc_row_length γ lam δ m a1 n :
  length δ = n → length m = n → length a1 = n →
  length (acc_row γ lam δ m a1) = n.
Proof. intros. unfold acc_row. rewrite !length_zip_with. lia. Qed.

Lemma td_length γ V r mb n :
  length V = S n → (n ≤ length r)%nat → length mb = n →
  length (td γ V r mb) = n.
Proof.
  intros HV Hr Hmb. unfold td.
  rewrite !length_zip_with, length_tl. lia.
Qed.

Lemma td_nth γ V r mb n t :
  length V = S n → (n ≤ length r)%nat → length mb = n → (t < n)%nat →
  nth t (td γ V r mb) []
  = td_row γ (nth t r []) (nth (S t) V []) (nth t mb []) (nth t V []).
Proof.
  intros HV Hr Hmb Ht. unfold td.
  rewrite (nth_zip_with _ _ _ _ ([], []) ([], []))
    by (rewrite length_zip_with, ?length_tl; lia).
  rewrite !nth_zip by (rewrite ?length_tl; lia).
  simpl. by rewrite !nth_lookup, lookup_tail.
Qed.

Lemma accumulate_cons γ lam δ δs m mb :
  accumulate γ lam (δ :: δs) (m :: mb)
  = match accumulate γ lam δs mb with
    | [] => [δ]
    | a1 :: _ => acc_row γ lam δ m a1 :: accumulate γ lam δs mb
    end.
Proof. done. Qed.

Lemma accumulate_length γ lam δs mb n :
  length δs = n → length mb = n → length (accumulate γ lam δs mb) = n.
Proof.
  revert mb n. induction δs as [|δ δs IH]; intros [|m mb] [|n] Hd Hm;
    try done.
  injection Hd as Hd. injection Hm as Hm.
  specialize (IH mb n Hd Hm). rewrite accumulate_cons.
  destruct (accumulate γ lam δs mb); simpl in *; lia.
Qed.

Lemma accumulate_nth γ lam δs mb n t :
  length δs = n → length mb = n → (t < n)%nat →
  nth t (accumulate γ lam δs mb) []
  = if decide (S t < n)%nat
    then acc_row γ lam (nth t δs []) (nth t mb [])
                 (nth (S t) (accumulate γ lam δs mb) [])
    else nth t δs [].
Proof.
  revert mb n t. induction δs as [|δ δs IH]; intros [|m mb] [|n] t Hd Hm Ht;
    try done; try (simpl in *; lia).
  rewrite accumulate_cons.
  injection Hd as Hd. injection Hm as Hm.
  pose proof (accumulate_length γ lam δs mb n Hd Hm) as Hlen.
  destruct (accumulate γ lam δs mb) as [|a1 acc] eqn:Hacc.
  - simpl in Hlen. subst n. assert (t = 0)%nat as -> by lia.
    destruct (decide _); [lia|done].
  - destruct t as [|t].
    + simpl. destruct (decide _); [done|]. simpl in Hlen. lia.
    + pose proof (IH mb n t Hd Hm ltac:(lia)) as IHt.
      rewrite Hacc in IHt. cbn [nth] in *. rewrite IHt.
      destruct (decide (S t < n)%nat), (decide (S (S t) < S n)%nat);
        try done; lia.
Qed.

Lemma accumulate_rect γ lam δs mb n b :
  rect n b δs → rect n b mb → rect n b (accumulate γ lam δs mb).
Proof.
  intros [Hd Hdr] [Hm Hmr]. split; [by apply accumulate_length|].
  clear Hd Hm. revert mb Hmr.
  induction Hdr as [|δ δs Hδ Hdr IH]; intros mb Hmr.
  - constructor.
  - destruct Hmr as [|m mb Hm Hmr]; [constructor|].
    rewrite accumulate_cons. specialize (IH mb Hmr).
    destruct (accumulate γ lam δs mb) as [|a1 acc].
    + by constructor.
    + constructor; [|done].
      apply (acc_row_length _ _ _ _ _ b); try done. by inversion IH.
Qed.

Lemma td_rect γ V r mb n m b :
  rect (S n) b V → rect m b r → (n ≤ m)%nat → rect n b mb →
  rect n b (td γ V r mb).
Proof.
  intros HV Hr Hnm Hmb. split.
  - apply td_length; [apply HV|destruct Hr; lia|apply Hmb].
  - apply Forall_lookup. intros t row Hrow.
    assert (t < n)%nat as Ht.
    { apply lookup_lt_Some in Hrow.
      rewrite (td_length _ _ _ _ n) in Hrow;
        [done|apply HV|destruct Hr; lia|apply Hmb]. }
    apply (nth_lookup_Some _ _ []) in Hrow. rewrite <- Hrow.
    rewrite (td_nth _ _ _ _ n)
      by (try apply HV; try apply Hmb; try done; destruct Hr; lia).
    apply (td_row_length _ _ _ _ _ b).
    + apply (rect_row m); [done|lia].
    + apply (rect_row (S n)); [done|lia].
    + by apply (rect_row n).
    + apply (rect_row (S n)); [done|lia].
Qed.

Lemma gae_recursion γ lam V r mb n m b t i :
  rect (S n) b V → rect m b r → (n ≤ m)%nat → rect n b mb →
  (t < n)%nat → (i < b)%nat →
  at2 (gae V r mb γ lam) t i
  == residual γ V r mb t i
     + γ * lam * bit mb t i * at2 (gae V r mb γ lam) (S t) i.
Proof.
  intros HV Hr Hnm Hmb Ht Hi. unfold gae, at2 at 1.
  pose proof (td_rect γ _ _ _ _ _ _ HV Hr Hnm Hmb) as Htd.
  pose proof (accumulate_rect γ lam _ _ _ _ Htd Hmb) as Hacc.
  rewrite (accumulate_nth _ _ _ _ n) by (try apply Htd; try apply Hmb; done).
  assert (nth i (nth t (td γ V r mb) []) 0 = residual γ V r mb t i) as Hres.
  { rewrite (td_nth _ _ _ _ n)
      by (try apply HV; try apply Hmb; try done; destruct Hr; lia).
    apply (td_row_nth _ _ _ _ _ _ b); try done.
    - apply (rect_row m); [done|lia].
    - apply (rect_row (S n)); [done|lia].
    - by apply (rect_row n).
    - apply (rect_row (S n)); [done|lia]. }
  destruct (decide (S t < n)%nat) as [Hlt|Hge].
  - rewrite (acc_row_nth _ _ _ _ _ _ b); try done.
    + rewrite Hres. reflexivity.
    + by apply (rect_row n).
    + by apply (rect_row n).
    + by apply (rect_row n).
  - assert (at2 (accumulate γ lam (td γ V r mb) mb) (S t) i = 0) as ->.
    { unfold at2. rewrite (nth_overflow (accumulate _ _ _ _))
        by (destruct Hacc; lia). by destruct i. }
    rewrite Hres. ring.
Qed.
End GaeFacts.

Section GaeClaim.
Open Scope Q_scope.

Lemma residual_no_bootstrap γ V r mb t i :
  nth i (nth t mb []) false = false →
  residual γ V r mb t i == at2 r t i - at2 V t i.
Proof.
  intros Hmb. unfold residual, bit. rewrite Hmb. simpl. ring.
Qed.

(** C1.  For every time step [t < T] and slot [i], the advantage returned
    by [compute_advantages_loss] (and by [compute_advantage_loss]) is
    [A_t = δ_t + γ·λ·must_bootstrap_t·A_{t+1}] with
    [δ_t = r_t + γ·V_{t+1}·must_bootstrap_t − V_t], the advantage after the
    last step being read as 0; for [λ = 0], [A_t] is the residual [δ_t];
    and where [must_bootstrap_t] is false, [A_t = r_t − V_t], the same for
    every value table that agrees on [V_t], whatever it holds at
    [t + 1]. *)
Theorem gae_backward_recursion
    (cfg : config) (V r : list (list Q)) (mb : list (list bool))
    (n m b t i : nat) :
  rect (S n) b V → rect m b r → (n ≤ m)%nat → rect n b mb →
  (t < n)%nat → (i < b)%nat →
  let γ := discount_factor cfg in
  let lam := gae_coef cfg in
  let A := (compute_advantages_loss cfg r mb V).2 in
  (compute_advantage_loss cfg r mb V).2 = A ∧
  at2 A t i
    == residual γ V r mb t i + γ * lam * bit mb t i * at2 A (S t) i ∧
  (lam == 0 → at2 A t i == residual γ V r mb t i) ∧
  (nth i (nth t mb []) false = false →
     at2 A t i == at2 r t i - at2 V t i ∧
     ∀ V', rect (S n) b V' → at2 V' t i == at2 V t i →
           at2 (compute_advantages_loss cfg r mb V').2 t i == at2 A t i).
Proof.
  intros HV Hr Hnm Hmb Ht Hi γ lam A.
  assert (HA : ∀ V', (compute_advantages_loss cfg r mb V').2
                     = gae V' r mb γ lam) by done.
  unfold A. rewrite !HA. clear A HA.
  assert (Hrec : ∀ V', rect (S n) b V' →
            at2 (gae V' r mb γ lam) t i
            == residual γ V' r mb t i
               + γ * lam * bit mb t i * at2 (gae V' r mb γ lam) (S t) i).
  { intros V' HV'. by apply (gae_recursion γ lam V' r mb n m b). }
  assert (Hoff : ∀ V', rect (S n) b V' →
            nth i (nth t mb []) false = false →
            at2 (gae V' r mb γ lam) t i == at2 r t i - at2 V' t i).
  { intros V' HV' Hfalse. rewrite (Hrec V' HV').
    rewrite (residual_no_bootstrap _ _ _ _ _ _ Hfalse).
    unfold bit. rewrite Hfalse. simpl. ring. }
  split_and!.
  - done.
  - by apply Hrec.
  - intros Hlam. rewrite (Hrec V HV).
    generalize (at2 (gae V r mb γ lam) (S t) i). intros A'.
    rewrite Hlam. ring.
  - intros Hfalse. split; [by apply Hoff|].
    intros V' HV' Hsame.
    transitivity (at2 r t i - at2 V' t i); [by apply (Hoff V')|].
    rewrite Hsame. symmetry. by apply Hoff.
Qed.
End GaeClaim.

Lemma gae_backward_recursion_witness :
  let γ := discount_factor Example.cfg in
  let lam := gae_coef Example.cfg in
  let A := (compute_advantages_loss Example.cfg Example.reward
              Example.must_bootstrap Example.v_value).2 in
  (compute_advantage_loss Example.cfg Example.reward
     Example.must_bootstrap Example.v_value).2 = A ∧
  (at2 A 1 0
    == residual γ Example.v_value Example.reward Example.must_bootstrap 1 0
       + γ * lam * bit Example.must_bootstrap 1 0 * at2 A 2 0)%Q ∧
  ((lam == 0)%Q →
   (at2 A 1 0
    == residual γ Example.v_value Example.reward
         Example.must_bootstrap 1 0)%Q) ∧
  (nth 0 (nth 1 Example.must_bootstrap []) false = false →
     (at2 A 1 0 == at2 Example.reward 1 0 - at2 Example.v_value 1 0)%Q ∧
     ∀ V', rect 3 2 V' → (at2 V' 1 0 == at2 Example.v_value 1 0)%Q →
           (at2 (compute_advantages_loss Example.cfg Example.reward
                   Example.must_bootstrap V').2 1 0 == at2 A 1 0)%Q).
Proof.
  apply (gae_backward_recursion Example.cfg Example.v_value Example.reward
           Example.must_bootstrap 2 3 2 1 0);
    try lia; (split; [reflexivity | repeat constructor]).
Defined.

(** The scenario of the specification: the episode of slot 0 ends with
    its second transition, so its advantage there is [r − V = 5 − 3]
    whatever [V] holds at step 2, while slot 1 bootstraps ([γ = 0.9],
    [λ = 1]). *)
Example gae_scenario :
  map (map Qred)
    (compute_advantages_loss Example.cfg Example.reward
       Example.must_bootstrap Example.v_value).2
  = [[9 # 2; 119 # 25]; [2; 12 # 5]]%Q.
Proof. vm_compute. reflexivity. Qed.

(** ** What an actor call leaves alone *)
Section ActorFrame.
Context `{Torch}.

Lemma forward_env_frame (a : actor) t o (s s' : state) c :
  forward a t o s = (Ok tt, s') →
  c ∈ env_channels →
  s'.1 !! c = s.1 !! c.
Proof.
  intros Hrun Hc. unfold env_channels in Hc.
  repeat (apply elem_of_cons in Hc as [->|Hc]);
    [..|by apply elem_of_nil in Hc];
    destruct a; unfold_forward Hrun; run_inv; ws_norm; done.
Qed.

Lemma forward_time_local (a : actor) t o (s s' : state) c i :
  forward a t o s = (Ok tt, s') →
  i ≠ t →
  ws_get s'.1 c i = ws_get s.1 c i.
Proof.
  intros Hrun Hi.
  destruct a; unfold_forward Hrun; run_inv; ws_time; done.
Qed.
End ActorFrame.

(** ** Computations that do not use the generator *)
Section GenFreeFacts.
Context `{Torch}.

Lemma gen_free_ret {A} (a : A) : gen_free (ret a).
Proof. done. Qed.

Lemma gen_free_raise {A} e : gen_free (raise (A:=A) e).
Proof. done. Qed.

Lemma gen_free_lift {A} (r : result A) : gen_free (lift r).
Proof. done. Qed.

Lemma gen_free_get c t : gen_free (get c t).
Proof. done. Qed.

Lemma gen_free_set c t x : gen_free (set c t x).
Proof.
  intros w g g'. unfold set. simpl. by destruct (ws_set w c t x).
Qed.

Lemma gen_free_bind {A B} (m : M A) (k : A → M B) :
  gen_free m → (∀ a, gen_free (k a)) → gen_free (bind m k).
Proof.
  intros Hm Hk w g g'. unfold bind.
  destruct (Hm w g g') as (Hr & Hw & Hg).
  pose proof (Hm w g' g) as (_ & _ & Hg').
  destruct (m (w, g)) as [r [w1 g1]], (m (w, g')) as [r' [w1' g1']].
  simpl in *. subst. destruct r' as [a|e]; [apply Hk|done].
Qed.

Lemma gen_free_when b (m : M unit) : gen_free m → gen_free (when b m).
Proof. destruct b; [done|]. intros _. apply gen_free_ret. Qed.
End GenFreeFacts.

Create HintDb gen_free.
#[export] Hint Resolve gen_free_ret gen_free_raise gen_free_lift gen_free_get
  gen_free_set gen_free_when : gen_free.

Ltac gen_free_step :=
  match goal with
  | |- gen_free (bind _ _) => apply gen_free_bind; [|intros ?]
  | |- gen_free (if ?b then _ else _) => destruct b
  | |- gen_free (match ?x with Some _ => _ | None => _ end) => destruct x
  | |- gen_free _ => solve [auto with gen_free]
  | |- gen_free (when _ _) => apply gen_free_when
  end.

Section Greedy.
Context `{Torch}.

(** With [stochastic=False] no actor draws from the generator. *)
Lemma forward_greedy (a : actor) t o :
  stochastic o = false → gen_free (forward a t o).
Proof.
  intros Hsto.
  destruct a; simpl;
    unfold ActorAgent.forward, BernoulliActor.forward, ProbAgent.forward,
      ActionAgent.forward, DiscreteActor.forward,
      TunableVarianceContinuousActor.forward,
      TunableVarianceContinuousActorExp.forward,
      StateDependentVarianceContinuousActor.forward,
      ConstantVarianceContinuousActor.forward,
      SquashedGaussianActor.forward;
    rewrite ?Hsto; repeat gen_free_step.
Qed.
End Greedy.

(** ** Continuation of a rollout *)
Section Continuation.
Context `{Torch} `{!Env}.

Lemma channel_copy_n_last_steps n (w : workspace) c :
  channel (copy_n_last_steps n w) c
  = drop (length (channel w c) - n) (channel w c).
Proof.
  unfold channel, copy_n_last_steps. rewrite lookup_fmap.
  by destruct (w !! c).
Qed.

Lemma copy_n_last_steps_get n (w : workspace) c i :
  n ≤ time_size w c →
  ws_get (copy_n_last_steps n w) c i = ws_get w c (time_size w c - n + i).
Proof.
  intros Hn. unfold ws_get, time_size.
  by rewrite channel_copy_n_last_steps, lookup_drop.
Qed.

Lemma run_time_local (a : agent) t n o x x' :
  time_local a →
  TemporalAgent.run a t n o x = (Ok tt, x') →
  ∀ c i, i < t → ws_get (ws x') c i = ws_get (ws x) c i.
Proof.
  intros Ha. revert t x. induction n as [|n IH]; intros t x Hrun c i Hi.
  - by injection Hrun as <-.
  - simpl in Hrun. destruct (a t o x) as [[[]|e] x1] eqn:Hstep; [|done].
    rewrite (IH _ _ Hrun) by lia. by eapply Ha.
Qed.

Lemma lift_agent_ok (f : nat → options → M unit) t o x x' :
  lift_agent f t o x = (Ok tt, x') →
  f t o (ws x, gen x) = (Ok tt, (ws x', gen x')) ∧ slots x' = slots x.
Proof.
  unfold lift_agent. destruct (f t o (ws x, gen x)) as [r [w g]].
  simpl. by intros [= -> <-].
Qed.

Lemma actor_time_local (a : actor) : time_local (lift_agent (forward a)).
Proof.
  intros t o x x' [Hrun _]%lift_agent_ok c i Hi.
  apply (forward_time_local _ _ _ _ _ c i Hrun). lia.
Qed.

Lemma write_rows_time_local t rows (s s' : state) c i :
  write_rows t rows s = (Ok tt, s') → i ≠ t →
  ws_get s'.1 c i = ws_get s.1 c i.
Proof.
  intros Hrun Hi. unfold write_rows in Hrun. run_inv. ws_time. done.
Qed.

Lemma driver_time_local (env : NoAutoResetGymAgent.t) :
  time_local (NoAutoResetGymAgent.forward env).
Proof.
  intros t o x x' Hrun c i Hi. unfold NoAutoResetGymAgent.forward in Hrun.
  destruct (match t with 0 => _ | S _ => _ end) as [l|e]; [|done].
  apply lift_agent_ok in Hrun as [Hrun _].
  apply (write_rows_time_local _ _ _ _ c i) in Hrun; [done|lia].
Qed.

Lemma agents_time_local (l : list agent) :
  Forall time_local l → time_local (Agents.forward l).
Proof.
  induction 1 as [|a l Ha Hl IH]; intros t o x x' Hrun c i Hi.
  - by injection Hrun as <-.
  - simpl in Hrun. destruct (a t o x) as [[[]|e] x1] eqn:Hstep; [|done].
    rewrite (IH _ _ _ _ Hrun) by done. by eapply Ha.
Qed.

Lemma ev_agent_time_local env (a : actor) : time_local (ev_agent env a).
Proof.
  apply agents_time_local. repeat constructor.
  - apply driver_time_local.
  - apply actor_time_local.
Qed.

(** C3.  For a workspace whose channel holds at least [n] time steps,
    reading the times [0 .. n-1] after [copy_n_last_steps(n)] returns the
    tensors of the last [n] time steps before the call, re-indexed from 0;
    hence the pattern of an epoch after the first, [copy_n_last_steps(1)]
    followed by a run of the temporal agent from [t = 1] for
    [n_steps - 1] steps, yields a segment whose step 0 is the last step of
    the previous segment. *)
Theorem copy_n_last_steps_continues
    (w : workspace) (n i : nat) (c : string)
    (a : agent) (n_steps : nat) (x x' : world) :
  n ≤ time_size w c →
  i < n →
  time_local a →
  1 ≤ time_size (ws x) c →
  next_segment a n_steps x = (Ok tt, x') →
  ws_get (copy_n_last_steps n w) c i = ws_get w c (time_size w c - n + i) ∧
  ws_get (ws x') c 0 = ws_get (ws x) c (time_size (ws x) c - 1).
Proof.
  intros Hn Hi Ha Hx Hrun. split.
  - by apply copy_n_last_steps_get.
  - unfold next_segment in Hrun.
    rewrite (run_time_local _ _ _ _ _ _ Ha Hrun) by lia. simpl.
    unfold zero_grad. rewrite copy_n_last_steps_get by done.
    f_equal. lia.
Qed.
End Continuation.

Lemma copy_n_last_steps_continues_witness :
  ws_get (copy_n_last_steps 2 (ws Example.epoch0)) "env/env_obs" 1
    = ws_get (ws Example.epoch0) "env/env_obs"
        (time_size (ws Example.epoch0) "env/env_obs" - 2 + 1) ∧
  ws_get (ws Example.epoch1) "env/env_obs" 0
    = ws_get (ws Example.epoch0) "env/env_obs"
        (time_size (ws Example.epoch0) "env/env_obs" - 1).
Proof.
  apply (copy_n_last_steps_continues (ws Example.epoch0) 2 1 "env/env_obs"
           Example.eval_agent 3 Example.epoch0 Example.epoch1).
  - vm_compute. lia.
  - lia.
  - apply ev_agent_time_local.
  - vm_compute. lia.
  - apply run_result. vm_compute. reflexivity.
Defined.

(** ** Rollouts that ignore the generator *)
Section Determinism.
Context `{Torch} `{!Env}.

Lemma lift_agent_gen_blind (f : nat → options → M unit) o :
  (∀ t, gen_free (f t o)) → gen_blind (lift_agent f) o.
Proof.
  intros Hf t x y Hw Hs. unfold lift_agent. simpl. rewrite Hw, Hs.
  destruct (Hf t (ws y) (gen x) (gen y)) as (H1 & H2 & _). done.
Qed.

Lemma driver_gen_blind env o :
  gen_blind (NoAutoResetGymAgent.forward env) o.
Proof.
  intros t x y Hw Hs. unfold NoAutoResetGymAgent.forward.
  rewrite Hw, Hs.
  destruct (match t with 0 => _ | S _ => _ end) as [l|e]; [|done].
  apply (lift_agent_gen_blind (λ t _, write_rows t l.*2)); [|done..].
  intros t'. unfold write_rows. repeat gen_free_step.
Qed.

Lemma agents_gen_blind (l : list agent) o :
  Forall (λ a, gen_blind a o) l → gen_blind (Agents.forward l) o.
Proof.
  induction 1 as [|a l Ha Hl IH]; intros t x y Hw Hs; [done|].
  simpl. destruct (Ha t x y Hw Hs) as (Hr & Hw' & Hs').
  destruct (a t o x) as [r1 x1], (a t o y) as [r2 y1]. simpl in *.
  subst r2. destruct r1; [by apply IH|done].
Qed.

Lemma run_gen_blind (a : agent) o t n x y :
  gen_blind a o → ws x = ws y → slots x = slots y →
  (TemporalAgent.run a t n o x).1 = (TemporalAgent.run a t n o y).1 ∧
  ws (TemporalAgent.run a t n o x).2 = ws (TemporalAgent.run a t n o y).2 ∧
  slots (TemporalAgent.run a t n o x).2
    = slots (TemporalAgent.run a t n o y).2.
Proof.
  intros Ha. revert t x y. induction n as [|n IH]; intros t x y Hw Hs;
    [done|].
  simpl. destruct (Ha t x y Hw Hs) as (Hr & Hw' & Hs').
  destruct (a t o x) as [r1 x1], (a t o y) as [r2 y1]. simpl in *.
  subst r2. destruct r1; [by apply IH|done].
Qed.

(** C5.  With greedy action selection ([stochastic=False]) a rollout is a
    function of the base seed of the environment driver and of the
    workspace it starts from: two rollouts of [n_steps] steps ([n_steps =
    10] in particular) from the same workspace, whatever the torch
    generator holds in each, return the same result and the same
    workspace, hence identical [action] and [env/env_obs] sequences. *)
Theorem greedy_rollout_deterministic
    (env : NoAutoResetGymAgent.t) (a : actor) (o : options)
    (n_steps : nat) (w : workspace) (g g' : generator) :
  stochastic o = false →
  let r := rollout env a o n_steps w g in
  let r' := rollout env a o n_steps w g' in
  r.1 = r'.1 ∧
  ws r.2 = ws r'.2 ∧
  ws r.2 !! "action" = ws r'.2 !! "action" ∧
  ws r.2 !! "env/env_obs" = ws r'.2 !! "env/env_obs".
Proof.
  intros Hsto r r'.
  assert (gen_blind (ev_agent env a) o) as Hblind.
  { apply agents_gen_blind. apply Forall_cons. split.
    - apply driver_gen_blind.
    - apply Forall_cons. split; [|by apply Forall_nil].
      apply lift_agent_gen_blind. intros t. by apply forward_greedy. }
  destruct (run_gen_blind _ o 0 n_steps
              {| ws := w; gen := g; slots := [] |}
              {| ws := w; gen := g'; slots := [] |} Hblind eq_refl eq_refl)
    as (Hr & Hw & _).
  fold (rollout env a o n_steps w g) in Hr, Hw.
  fold (rollout env a o n_steps w g') in Hr, Hw.
  fold r r' in Hr, Hw. by rewrite Hr, Hw.
Qed.
End Determinism.

Lemma greedy_rollout_deterministic_witness :
  let r := Example.greedy 0 in
  let r' := Example.greedy 7 in
  r.1 = r'.1 ∧
  ws r.2 = ws r'.2 ∧
  ws r.2 !! "action" = ws r'.2 !! "action" ∧
  ws r.2 !! "env/env_obs" = ws r'.2 !! "env/env_obs".
Proof.
  apply (greedy_rollout_deterministic Example.two_envs
           (ADiscrete Example.discrete) eval_options 10 ∅ 0 7).
  reflexivity.
Defined.

(** The ten-step greedy rollout of the example runs to its end. *)
Example greedy_rollout_runs : (Example.greedy 0).1 = Ok tt.
Proof. vm_compute. reflexivity. Qed.

(** ** The evaluation rollout *)
Section Evaluation.
Context `{Torch} `{!Env}.

Lemma row_is_ext (w w' : workspace) t rows :
  (∀ c, c ∈ env_channels → ws_get w' c t = ws_get w c t) →
  row_is w t rows → row_is w' t rows.
Proof.
  intros Hw (H1 & H2 & H3 & H4 & H5). unfold row_is.
  rewrite !Hw by in_env. done.
Qed.

Lemma write_rows_spec t rows (s s' : state) :
  write_rows t rows s = (Ok tt, s') →
  row_is s'.1 t rows ∧
  (∀ c, c ∈ env_channels → length (channel s.1 c) = t →
        length (channel s'.1 c) = S t).
Proof.
  intros Hrun. unfold write_rows in Hrun. run_inv. split.
  - unfold row_is. split_and!; ws_norm; done.
  - intros c Hc Hlen. unfold env_channels in Hc.
    repeat (apply elem_of_cons in Hc as [->|Hc]);
      [..|by apply elem_of_nil in Hc].
    all: repeat match goal with
         | Hs : ws_set ?w ?c' _ _ = Ok ?w' |- context [channel ?w' ?c] =>
             first
               [ apply (ws_set_length _ _ _ _ _ Hs)
               | unfold channel at 1;
                 rewrite (ws_set_other _ _ _ c _ _ Hs) by done;
                 fold (channel w c) ]
         end; done.
Qed.
Lemma reset_slot_tracks seed i :
  tracks (reset_slot seed i).1 (reset_slot seed i).2 ∧
  row_cumulated (reset_slot seed i).2 = zero.
Proof. done. Qed.

Lemma step_slot_tracks (s : slot) (a : slot_action) (r : slot_row) :
  tracks s r →
  tracks (step_slot s a).1 (step_slot s a).2 ∧
  follows r (step_slot s a).2.
Proof.
  intros (Ho & Hd & Ht & Hc). unfold step_slot, follows.
  rewrite <- Hd, <- Ht.
  destruct (is_done s || is_truncated s); simpl.
  - split; [done|]. by rewrite Ho, Hc.
  - split; [done|]. by rewrite Hc.
Qed.

Lemma zip_step_slot (sl : list slot) (acts : list slot_action)
    (rows : list slot_row) (l : list (slot * slot_row)) :
  zip_exact step_slot sl acts = Ok l →
  Forall2 tracks sl rows →
  Forall2 tracks l.*1 l.*2 ∧ Forall2 follows rows l.*2 ∧
  length l = length rows.
Proof.
  unfold zip_exact. destruct (decide _) as [Hlen|]; [|done].
  intros [= <-] Htr. revert acts Hlen.
  induction Htr as [|s r sl rows Hsr Htr IH]; intros [|a acts] Hlen;
    try done.
  injection Hlen as Hlen. destruct (IH acts Hlen) as (H1 & H2 & H3).
  destruct (step_slot_tracks s a r Hsr) as [H4 H5].
  simpl. split_and!; [by constructor|by constructor|by rewrite H3].
Qed.

Lemma reset_slots seed n :
  let l := reset_slot seed <$> seq 0 n in
  Forall2 tracks l.*1 l.*2 ∧
  Forall (λ r, row_cumulated r = zero) l.*2 ∧
  length l = n.
Proof.
  intros l. unfold l. split_and!.
  - induction (seq 0 n) as [|i k IH]; simpl; [constructor|].
    constructor; [apply reset_slot_tracks|done].
  - induction (seq 0 n) as [|i k IH]; simpl; [constructor|].
    constructor; [done|done].
  - by rewrite length_fmap, length_seq.
Qed.

(** One step of the evaluation agent. *)
Lemma ev_agent_step env (a : actor) k o (x x' : world) :
  ev_agent env a k o x = (Ok tt, x') →
  ∃ (l : list (slot * slot_row)) (w1 : workspace),
    match k with
    | 0 => l = reset_slot (NoAutoResetGymAgent.seed env)
                 <$> seq 0 (NoAutoResetGymAgent.n_envs env)
    | S k' => ∃ acts, zip_exact step_slot (slots x) acts = Ok l
    end ∧
    slots x' = l.*1 ∧
    row_is w1 k l.*2 ∧
    (∀ c i, i ≠ k → ws_get w1 c i = ws_get (ws x) c i) ∧
    (∀ c, c ∈ env_channels → length (channel (ws x) c) = k →
          length (channel w1 c) = S k) ∧
    (∀ c, c ∈ env_channels → ws x' !! c = w1 !! c).
Proof.
  unfold ev_agent. intros Hrun. cbn [Agents.forward] in Hrun.
  destruct (NoAutoResetGymAgent.forward env k o x) as [[[]|e] x1] eqn:Hdrv;
    [|done].
  destruct (lift_agent (forward a) k o x1) as [[[]|e] x2] eqn:Hact; [|done].
  injection Hrun as <-.
  apply lift_agent_ok in Hact as [Hact Hsl].
  unfold NoAutoResetGymAgent.forward in Hdrv.
  destruct (match k with 0 => _ | S _ => _ end) as [l|e] eqn:Hstep;
    [|done].
  apply lift_agent_ok in Hdrv as [Hdrv Hsl1]. simpl in Hdrv, Hsl1.
  exists l, (ws x1). split_and!.
  - destruct k; [by injection Hstep|].
    apply rbind_ok in Hstep as (a0 & _ & Hstep).
    apply rbind_ok in Hstep as (acts & _ & Hstep). eauto.
  - congruence.
  - by apply (write_rows_spec _ _ _ _ Hdrv).
  - intros c i Hi.
    by apply (write_rows_time_local _ _ _ _ c i Hdrv).
  - by apply (write_rows_spec _ _ _ _ Hdrv).
  - intros c Hc. by apply (forward_env_frame _ _ _ _ _ c Hact).
Qed.

Lemma row_is_frame (w w' : workspace) t rows :
  (∀ c, c ∈ env_channels → w' !! c = w !! c) →
  row_is w t rows → row_is w' t rows.
Proof.
  intros Hw. apply row_is_ext. intros c Hc.
  unfold ws_get, channel. by rewrite Hw.
Qed.

Lemma rolled_next env (a : actor) k o (x x' : world) :
  rolled (NoAutoResetGymAgent.n_envs env) k x →
  ev_agent env a k o x = (Ok tt, x') →
  rolled (NoAutoResetGymAgent.n_envs env) (S k) x'.
Proof.
  intros [Hlen Hrows Hslots Hstep Hfirst] Hrun.
  apply ev_agent_step in Hrun
    as (l & w1 & Hl & Hsl & Hrow & Hold & Hlen1 & Hframe).
  assert (Hkeep : ∀ s rows, s < k → row_is (ws x) s rows
                            → row_is (ws x') s rows).
  { intros s rows Hs Hr. apply (row_is_frame w1); [done|].
    revert Hr. apply row_is_ext. intros c _. apply Hold. lia. }
  assert (Hnew : row_is (ws x') k l.*2) by by apply (row_is_frame w1).
  assert (Hfacts : Forall2 tracks l.*1 l.*2 ∧
                   length l = NoAutoResetGymAgent.n_envs env ∧
                   (k = 0 → Forall (λ r, row_cumulated r = zero) l.*2) ∧
                   (∀ rows, 0 < k → row_is (ws x) (k - 1) rows →
                            Forall2 tracks (slots x) rows →
                            Forall2 follows rows l.*2)).
  { destruct k as [|k].
    - subst l. destruct (reset_slots (NoAutoResetGymAgent.seed env)
                           (NoAutoResetGymAgent.n_envs env)) as (?&?&?).
      split_and!; try done. lia.
    - destruct Hl as [acts Hl].
      destruct Hslots as (rows & Hr & Hn & Htr); [lia|].
      destruct (zip_step_slot _ _ _ _ Hl Htr) as (H1 & H2 & H3).
      split_and!; [done|congruence|done|].
      intros rows' _ Hr' Htr'.
      by destruct (zip_step_slot _ _ _ _ Hl Htr') as (_ & ? & _). }
  destruct Hfacts as (Htr & Hn & Hzero & Hfol).
  split.
  - intros c Hc. unfold channel. rewrite (Hframe c Hc).
    apply Hlen1; [done|]. by apply Hlen.
  - intros s Hs. destruct (decide (s = k)) as [->|Hne].
    + exists l.*2. by rewrite length_fmap.
    + destruct (Hrows s ltac:(lia)) as (rows & Hr & Hrn).
      exists rows. split; [|done]. apply Hkeep; [lia|done].
  - intros _. replace (S k - 1) with k by lia.
    exists l.*2. rewrite Hsl, length_fmap. done.
  - intros s Hs. destruct (decide (S s = k)) as [<-|Hne].
    + destruct Hslots as (rows & Hr & Hrn & Hrt); [lia|].
      replace (S s - 1) with s in Hr by lia.
      exists rows, l.*2. split_and!; [apply Hkeep; [lia|done]|done|].
      apply Hfol; [lia| |done]. by replace (S s - 1) with s by lia.
    + destruct (Hstep s ltac:(lia)) as (rows & rows' & Hr & Hr' & Hf).
      exists rows, rows'.
      split_and!; [| |done]; apply Hkeep; first [lia|done].
  - intros _. destruct k as [|k].
    + exists l.*2. split; [done|]. by apply Hzero.
    + destruct Hfirst as (rows & Hr & Hz); [lia|].
      exists rows. split; [|done]. apply Hkeep; [lia|done].
Qed.
Lemma rolled_start n g : rolled n 0 (empty_world g).
Proof.
  split; try (intros; lia).
  intros c _. unfold channel. simpl. by rewrite lookup_empty.
Qed.

Lemma rolled_run env (a : actor) o k n (x x' : world) :
  rolled (NoAutoResetGymAgent.n_envs env) k x →
  TemporalAgent.run (ev_agent env a) k n o x = (Ok tt, x') →
  rolled (NoAutoResetGymAgent.n_envs env) (k + n) x'.
Proof.
  revert k x. induction n as [|n IH]; intros k x Hx Hrun.
  - injection Hrun as <-. by rewrite Nat.add_0_r.
  - simpl in Hrun.
    destruct (ev_agent env a k o x) as [[[]|e] x1] eqn:Hstep; [|done].
    replace (k + S n) with (S k + n) by lia.
    apply (IH (S k) x1); [|done]. by eapply rolled_next.
Qed.

(** Reading one slot of a row. *)
Lemma row_is_at (w : workspace) t rows i :
  row_is w t rows →
  obs_at w t i = row_obs <$> rows !! i ∧
  reward_at w t i = row_reward <$> rows !! i ∧
  done_at w t i = row_done <$> rows !! i ∧
  truncated_at w t i = row_truncated <$> rows !! i ∧
  cumulated_at w t i = row_cumulated <$> rows !! i.
Proof.
  intros (H1 & H2 & H3 & H4 & H5).
  unfold obs_at, reward_at, done_at, truncated_at, cumulated_at.
  rewrite H1, H2, H3, H4, H5, !list_lookup_fmap. done.
Qed.

(** A slot that is done at [s] is frozen at [s + 1]. *)
Lemma frozen_next n k (x : world) s i :
  rolled n k x → S s < k →
  done_at (ws x) s i = Some true →
  reward_at (ws x) (S s) i = Some zero ∧
  obs_at (ws x) (S s) i = obs_at (ws x) s i ∧
  done_at (ws x) (S s) i = Some true ∧
  cumulated_at (ws x) (S s) i = cumulated_at (ws x) s i.
Proof.
  intros Hx Hs Hd.
  destruct (rolled_step _ _ _ Hx s Hs) as (rows & rows' & Hr & Hr' & Hf).
  destruct (row_is_at _ _ _ i Hr) as (Ho & _ & Hdn & _ & Hc).
  destruct (row_is_at _ _ _ i Hr') as (Ho' & Hrw' & Hdn' & _ & Hc').
  rewrite Ho, Ho', Hrw', Hdn', Hc, Hc'. rewrite Hdn in Hd.
  destruct (rows !! i) as [r|] eqn:Hri; [|done].
  injection Hd as Hd.
  destruct (Forall2_lookup_l _ _ _ _ _ Hf Hri) as (r' & -> & Hrr).
  unfold follows in Hrr. rewrite Hd in Hrr. simpl in Hrr. subst r'.
  done.
Qed.

Lemma frozen_later n k (x : world) s s' i :
  rolled n k x → s < s' → s' < k →
  done_at (ws x) s i = Some true →
  reward_at (ws x) s' i = Some zero ∧
  obs_at (ws x) s' i = obs_at (ws x) s i ∧
  done_at (ws x) s' i = Some true ∧
  cumulated_at (ws x) s' i = cumulated_at (ws x) s i.
Proof.
  intros Hx Hlt Hk Hd. induction s' as [|s' IH]; [lia|].
  destruct (decide (s = s')) as [<-|Hne]; [by eapply frozen_next|].
  destruct IH as (_ & Ho & Hd' & Hc); [lia..|].
  destruct (frozen_next _ _ _ s' i Hx Hk Hd') as (? & ? & ? & ?).
  split_and!; congruence.
Qed.

(** While a slot runs, its cumulated reward grows by the reward. *)
Lemma running_next n k (x : world) s i :
  rolled n k x → S s < k →
  done_at (ws x) s i = Some false →
  truncated_at (ws x) s i = Some false →
  ∃ c r, cumulated_at (ws x) s i = Some c ∧
         reward_at (ws x) (S s) i = Some r ∧
         cumulated_at (ws x) (S s) i = Some (t_add c r).
Proof.
  intros Hx Hs Hd Ht.
  destruct (rolled_step _ _ _ Hx s Hs) as (rows & rows' & Hr & Hr' & Hf).
  destruct (row_is_at _ _ _ i Hr) as (_ & _ & Hdn & Htr & Hc).
  destruct (row_is_at _ _ _ i Hr') as (_ & Hrw' & _ & _ & Hc').
  rewrite Hrw', Hc, Hc'. rewrite Hdn in Hd. rewrite Htr in Ht.
  destruct (rows !! i) as [r|] eqn:Hri; [|done].
  injection Hd as Hd. injection Ht as Ht.
  destruct (Forall2_lookup_l _ _ _ _ _ Hf Hri) as (r' & -> & Hrr).
  unfold follows in Hrr. rewrite Hd, Ht in Hrr. simpl in Hrr.
  exists (row_cumulated r), (row_reward r'). simpl. by rewrite Hrr.
Qed.

(** A loop with a stop variable returns what the run of the right
    length returns. *)
Lemma run_until_run fuel (a : agent) t T stop o (x x' : world) :
  time_local a →
  T < fuel →
  TemporalAgent.run a t (S T) o x = (Ok tt, x') →
  rbind (ws_get (ws x') stop (t + T)) TemporalAgent.all_set = Ok true →
  (∀ k, k < T →
        rbind (ws_get (ws x') stop (t + k)) TemporalAgent.all_set
        = Ok false) →
  TemporalAgent.run_until fuel a t stop o x = Some (Ok tt, x').
Proof.
  intros Ha. revert fuel t x.
  induction T as [|T IH]; intros fuel t x Hfuel Hrun Hstop Hgo;
    (destruct fuel as [|fuel]; [lia|]); simpl in Hrun |- *;
    destruct (a t o x) as [[[]|e] x1] eqn:Hstep; try done.
  - injection Hrun as ->. rewrite Nat.add_0_r in Hstop. by rewrite Hstop.
  - change (match a (S t) o x1 with
            | (Ok _, x'0) => TemporalAgent.run a (S (S t)) T o x'0
            | (Err e, x'0) => (Err e, x'0)
            end) with (TemporalAgent.run a (S t) (S T) o x1) in Hrun.
    rewrite <- (run_time_local _ _ _ _ _ _ Ha Hrun) by lia.
    specialize (Hgo 0 ltac:(lia)) as Hnow. rewrite Nat.add_0_r in Hnow.
    rewrite Hnow. apply IH; [lia|done| |].
    + by replace (S t + T) with (t + S T) by lia.
    + intros k Hk. replace (S t + k) with (t + S k) by lia.
      apply Hgo. lia.
Qed.

Lemma forallb_id_lookup (v : list bool) :
  forallb id v = true ↔ ∀ i b, v !! i = Some b → b = true.
Proof.
  induction v as [|b v IH]; simpl.
  - split; [by intros _ i b|done].
  - rewrite andb_true_iff, IH. split.
    + intros [Hb Hv] [|i] b'; simpl; [by intros [= <-]|apply Hv].
    + intros Hv. split; [by apply (Hv 0)|]. intros i. apply (Hv (S i)).
Qed.

Lemma last_lookup_length {A} (l : list A) n :
  length l = S n → last l = l !! n.
Proof. intros Hl. rewrite last_lookup, Hl. done. Qed.

(** C6.  In an evaluation rollout whose slots are all done for the first
    time at time [T]: a slot that is done at [t] has reward exactly 0 and
    an unchanged observation at every later time; the loop with the stop
    variable [env/done] stops after the step at [T] (any fuel above [T]
    returns that state); and the last row of [env/cumulated_reward],
    which the evaluation code reads, is the row at [T], where each slot
    holds the cumulated reward it had when it became done, a sum that
    starts at 0 and grows by the reward of every step the slot was
    running. *)
Theorem evaluation_freezes_and_stops
    (env : NoAutoResetGymAgent.t) (a : actor) (g : generator)
    (T : nat) (x : world) :
  rollout env a eval_options (S T) ∅ g = (Ok tt, x) →
  (∀ i, i < NoAutoResetGymAgent.n_envs env →
        done_at (ws x) T i = Some true) →
  (∀ t, t < T → ∃ i, done_at (ws x) t i = Some false) →
  (∀ t t' i, t < t' → t' ≤ T → done_at (ws x) t i = Some true →
     reward_at (ws x) t' i = Some zero ∧
     obs_at (ws x) t' i = obs_at (ws x) t i) ∧
  (∀ fuel, T < fuel → evaluate fuel env a g = Some (Ok tt, x)) ∧
  last_row (ws x) "env/cumulated_reward"
    = ws_get (ws x) "env/cumulated_reward" T ∧
  (∀ t i, t ≤ T → done_at (ws x) t i = Some true →
     cumulated_at (ws x) T i = cumulated_at (ws x) t i) ∧
  (∀ i, i < NoAutoResetGymAgent.n_envs env →
     cumulated_at (ws x) 0 i = Some zero) ∧
  (∀ t i, t < T → done_at (ws x) t i = Some false →
     truncated_at (ws x) t i = Some false →
     ∃ c r, cumulated_at (ws x) t i = Some c ∧
            reward_at (ws x) (S t) i = Some r ∧
            cumulated_at (ws x) (S t) i = Some (t_add c r)).
Proof.
  intros Hrun Hall Hnot.
  assert (Hx : rolled (NoAutoResetGymAgent.n_envs env) (S T) x).
  { apply (rolled_run env a eval_options 0 (S T) (empty_world g));
      [apply rolled_start|done]. }
  split_and!.
  - intros t t' i Hlt Hle Hd.
    destruct (frozen_later _ _ _ t t' i Hx Hlt ltac:(lia) Hd) as (?&?&_).
    done.
  - intros fuel Hfuel. unfold evaluate.
    apply (run_until_run fuel _ 0 T);
      [apply ev_agent_time_local|done|done| |].
    + destruct (rolled_rows _ _ _ Hx T ltac:(lia)) as (rows & Hr & Hn).
      pose proof Hr as (_ & _ & Hd & _). simpl. rewrite Hd. simpl. f_equal.
      apply forallb_id_lookup. intros i b Hb.
      assert (i < NoAutoResetGymAgent.n_envs env) as Hi.
      { apply lookup_lt_Some in Hb. by rewrite length_fmap, Hn in Hb. }
      specialize (Hall i Hi).
      destruct (row_is_at _ _ _ i Hr) as (_ & _ & Hdn & _).
      rewrite list_lookup_fmap in Hb. congruence.
    + intros k Hk. destruct (Hnot k Hk) as [i Hi].
      destruct (rolled_rows _ _ _ Hx k ltac:(lia)) as (rows & Hr & Hn).
      pose proof Hr as (_ & _ & Hd & _). simpl. rewrite Hd. simpl. f_equal.
      destruct (row_is_at _ _ _ i Hr) as (_ & _ & Hdn & _).
      rewrite Hdn in Hi.
      apply not_true_is_false. intros Hforall.
      rewrite forallb_id_lookup in Hforall.
      destruct (rows !! i) as [r|] eqn:Hri; [|done].
      injection Hi as Hi.
      specialize (Hforall i false). rewrite list_lookup_fmap, Hri in Hforall.
      simpl in Hforall. rewrite Hi in Hforall. by specialize (Hforall eq_refl).
  - assert (length (channel (ws x) "env/cumulated_reward") = S T) as Hlen.
    { apply (rolled_length _ _ _ Hx). in_env. }
    unfold last_row, ws_get. rewrite (last_lookup_length _ T Hlen).
    destruct (lookup_lt_is_Some_2 (channel (ws x) "env/cumulated_reward") T)
      as [y Hy]; [lia|]. by rewrite Hy.
  - intros t i Hle Hd. destruct (decide (t = T)) as [->|Hne]; [done|].
    by destruct (frozen_later _ _ _ t T i Hx ltac:(lia) ltac:(lia) Hd)
      as (_ & _ & _ & ?).
  - intros i Hi.
    destruct (rolled_first _ _ _ Hx ltac:(lia)) as (rows & Hr & Hz).
    destruct (rolled_rows _ _ _ Hx 0 ltac:(lia)) as (rows' & Hr' & Hn).
    destruct (row_is_at _ _ _ i Hr) as (_ & _ & _ & _ & Hc).
    destruct (row_is_at _ _ _ i Hr') as (_ & _ & _ & _ & Hc').
    rewrite Hc. rewrite Hc in Hc'.
    destruct (lookup_lt_is_Some_2 rows' i ltac:(lia)) as [r' Hri'].
    rewrite Hri' in Hc'. destruct (rows !! i) as [r|] eqn:Hri; [|done].
    rewrite Forall_lookup in Hz. simpl. by rewrite (Hz i r Hri).
  - intros t i Hlt Hd Ht. by eapply running_next; [done|lia|..].
Qed.
End Evaluation.

Lemma evaluation_freezes_and_stops_witness :
  let x := Example.evaluated in
  (∀ t t' i, t < t' → t' ≤ 3 → done_at (ws x) t i = Some true →
     reward_at (ws x) t' i = Some zero ∧
     obs_at (ws x) t' i = obs_at (ws x) t i) ∧
  (∀ fuel, 3 < fuel →
     evaluate fuel Example.two_envs (ADiscrete Example.discrete) 0
     = Some (Ok tt, x)) ∧
  last_row (ws x) "env/cumulated_reward"
    = ws_get (ws x) "env/cumulated_reward" 3 ∧
  (∀ t i, t ≤ 3 → done_at (ws x) t i = Some true →
     cumulated_at (ws x) 3 i = cumulated_at (ws x) t i) ∧
  (∀ i, i < NoAutoResetGymAgent.n_envs Example.two_envs →
     cumulated_at (ws x) 0 i = Some zero) ∧
  (∀ t i, t < 3 → done_at (ws x) t i = Some false →
     truncated_at (ws x) t i = Some false →
     ∃ c r, cumulated_at (ws x) t i = Some c ∧
            reward_at (ws x) (S t) i = Some r ∧
            cumulated_at (ws x) (S t) i = Some (t_add c r)).
Proof.
  apply (evaluation_freezes_and_stops Example.two_envs
           (ADiscrete Example.discrete) 0 3 Example.evaluated).
  - apply run_result. vm_compute. reflexivity.
  - intros i Hi. destruct i as [|[|i]]; [vm_compute; reflexivity..|].
    simpl in Hi. lia.
  - intros t Ht. exists 0.
    destruct t as [|[|[|t]]]; [vm_compute; reflexivity..|lia].
Defined.

(** The return the evaluation code reads in the example: slot 0 collected
    three rewards and slot 1, which started one count later, two. *)
Example evaluation_returns :
  last_row (ws Example.evaluated) "env/cumulated_reward"
  = Ok (TFloat (H:=Sym.torch) [Sym.SLit 3; Sym.SLit 2]).
Proof. vm_compute. reflexivity. Qed.

(** ** Frame and error behaviour of every agent call *)
Section ConfinedFacts.
Context `{Torch}.

Lemma confined_ret {A} t (a : A) : confined t (ret a).
Proof. done. Qed.

Lemma confined_raise {A} t e : confined t (raise (A:=A) e).
Proof. done. Qed.

Lemma confined_lift {A} t (r : result A) : confined t (lift r).
Proof. done. Qed.

Lemma confined_get t c i : confined t (get c i).
Proof. done. Qed.

Lemma confined_draw {A} t (f : generator → A * generator) :
  confined t (draw f).
Proof. intros s. unfold draw. by destruct (f s.2). Qed.

Lemma confined_set t c x : c ∈ actor_channels → confined t (set c t x).
Proof.
  intros Hc s. unfold set. destruct (ws_set s.1 c t x) as [w|e] eqn:Hs;
    [|done]. simpl. split.
  - intros c' i Hi. destruct (decide (c = c')) as [<-|Hne].
    + apply (ws_get_set_time _ _ _ _ _ _ _ Hs). by apply Hi.
    + by apply (ws_get_set_other _ _ _ _ _ _ _ Hs).
  - intros c'. unfold time_size.
    apply ws_set_inv in Hs as (l' & -> & Hle & Hl & Hrest).
    destruct (decide (c = c')) as [<-|Hne].
    + rewrite channel_insert.
      destruct (decide (length (channel s.1 c) ≤ length l')); [done|].
      assert (length l' ≠ t) as Hne.
      { intros <-. apply lookup_lt_Some in Hl. lia. }
      specialize (Hrest (length l') Hne).
      rewrite lookup_ge_None_2 in Hrest by lia.
      symmetry in Hrest. apply lookup_ge_None in Hrest. lia.
    + unfold channel. by rewrite lookup_insert_ne.
Qed.

Lemma confined_bind {A B} t (m : M A) (k : A → M B) :
  confined t m → (∀ a, confined t (k a)) → confined t (bind m k).
Proof.
  intros Hm Hk s. unfold bind. destruct (Hm s) as [H1 H2].
  destruct (m s) as [[a|e] s1]; [|done]. simpl in *.
  destruct (Hk a s1) as [H3 H4]. split.
  - intros c i Hi. rewrite H3 by done. by apply H1.
  - intros c. etrans; [apply H2|apply H4].
Qed.

Lemma confined_when t b (m : M unit) : confined t m → confined t (when b m).
Proof. destruct b; [done|]. intros _. apply confined_ret. Qed.
End ConfinedFacts.

Ltac in_actor :=
  unfold actor_channels;
  repeat first [apply list_elem_of_here | apply list_elem_of_further].

Ltac confined_step :=
  match goal with
  | |- confined _ (bind _ _) => apply confined_bind; [|intros ?]
  | |- confined _ (if ?b then _ else _) => destruct b
  | |- confined _ (match ?x with Some _ => _ | None => _ end) => destruct x
  | |- confined _ (when _ _) => apply confined_when
  | |- confined _ (set _ _ _) => apply confined_set; in_actor
  | |- confined _ (ret _) => apply confined_ret
  | |- confined _ (raise _) => apply confined_raise
  | |- confined _ (lift _) => apply confined_lift
  | |- confined _ (get _ _) => apply confined_get
  | |- confined _ (draw _) => apply confined_draw
  end.

Ltac unfold_forward_goal :=
  simpl;
  unfold ActorAgent.forward, BernoulliActor.forward, ProbAgent.forward,
    ActionAgent.forward, DiscreteActor.forward,
    TunableVarianceContinuousActor.forward,
    TunableVarianceContinuousActorExp.forward,
    StateDependentVarianceContinuousActor.forward,
    ConstantVarianceContinuousActor.forward,
    SquashedGaussianActor.forward.

Section AgentCalls.
Context `{Torch}.

(** X1.  Whether it returns or raises, a [forward] call at time [t] of any
    of the ten agent classes changes no entry of the workspace other than
    the entries at time [t] of the channels [action], [action_logprobs],
    [entropy], [logprob_predict] and [action_probs], and shortens no
    channel. *)
Theorem forward_is_confined (a : actor) (t : nat) (o : options) (s : state) :
  (∀ c i, (c ∈ actor_channels → i ≠ t) →
          ws_get (forward a t o s).2.1 c i = ws_get s.1 c i) ∧
  (∀ c, time_size s.1 c ≤ time_size (forward a t o s).2.1 c).
Proof.
  revert s. change (confined t (forward a t o)).
  destruct a; unfold_forward_goal; repeat confined_step.
Qed.

(** X2.  An agent call draws from the torch generator only to sample a new
    action: a greedy call ([stochastic=False]) of any class, and a
    re-scoring call ([predict_proba=True]) of a class that takes the
    option, return the same result and workspace whatever the generator
    holds, and hand the generator back unchanged, also when they raise. *)
Theorem only_sampling_draws
    (a : actor) (t : nat) (o : options) (w : workspace) (g g' : generator) :
  stochastic o = false ∨ (takes_predict_proba a && predict_proba o = true) →
  (forward a t o (w, g)).1 = (forward a t o (w, g')).1 ∧
  (forward a t o (w, g)).2.1 = (forward a t o (w, g')).2.1 ∧
  (forward a t o (w, g)).2.2 = g.
Proof.
  intros [Hsto|[Ha Hp]%andb_true_iff].
  - by apply forward_greedy.
  - revert w g g'. change (gen_free (forward a t o)).
    destruct a; try discriminate Ha; unfold_forward_goal;
      rewrite Hp; repeat gen_free_step.
Qed.


(** X4.  A re-scoring call cannot succeed on a workspace that holds no
    action at [t]: for every class that takes [predict_proba], the call
    raises. *)
Theorem predict_proba_needs_stored_action
    (a : actor) (t : nat) (o : options) (s : state) (e : error) :
  takes_predict_proba a = true →
  predict_proba o = true →
  ws_get s.1 "action" t = Err e →
  ∃ e', (forward a t o s).1 = Err e'.
Proof.
  intros Ha Hp Hact.
  destruct (forward a t o s) as [[[]|e'] s'] eqn:Hrun; [|by eauto].
  destruct (forward_predict_proba _ _ _ _ _ Ha Hp Hrun)
    as (_ & _ & act & _ & _ & _ & Hget & _). congruence.
Qed.
End AgentCalls.

Lemma only_sampling_draws_witness :
  (forward (ADiscrete Example.discrete) 0 Cases.greedy_call
     (Cases.start_state 0)).1
  = (forward (ADiscrete Example.discrete) 0 Cases.greedy_call
       (Cases.start_state 5)).1 ∧
  (forward (ADiscrete Example.discrete) 0 Cases.greedy_call
     (Cases.start_state 0)).2.1
  = (forward (ADiscrete Example.discrete) 0 Cases.greedy_call
       (Cases.start_state 5)).2.1 ∧
  (forward (ADiscrete Example.discrete) 0 Cases.greedy_call
     (Cases.start_state 0)).2.2 = 0.
Proof.
  apply (only_sampling_draws (ADiscrete Example.discrete) 0
           Cases.greedy_call Example.fresh 0 5).
  left. reflexivity.
Defined.


Lemma predict_proba_needs_stored_action_witness :
  ∃ e, (forward (ADiscrete Example.discrete) 0
          (Example.call true true false) (Cases.start_state 0)).1 = Err e.
Proof.
  apply (predict_proba_needs_stored_action (ADiscrete Example.discrete) 0
           (Example.call true true false) (Cases.start_state 0)
           MissingEntry); reflexivity.
Defined.

(** ** Repeating a call *)
Section Idempotence.
Context `{Torch}.

Lemma forallb_insert {A} (f : A → bool) (l : list A) (i : nat) (x : A) :
  forallb f l = true → f x = true → forallb f (<[i := x]> l) = true.
Proof.
  revert i. induction l as [|a l IH]; intros i Hl Hx; [done|].
  simpl in Hl. apply andb_true_iff in Hl as [Ha Hl].
  destruct i as [|i]; simpl; apply andb_true_iff; split; auto.
Qed.

Lemma ws_set_settles (w w' : workspace) c t x :
  ws_set w c t x = Ok w' → settled w' c t x.
Proof.
  unfold ws_set, settled. intros Hs.
  destruct (decide (length (channel w c) < t)); [done|].
  destruct (forallb (same_shape x) (channel w c)) eqn:Hall; [|done].
  assert (same_shape x x = true) as Hxx by by apply bool_decide_eq_true.
  simpl in Hs.
  destruct (decide (t = length (channel w c))) as [->|Hne];
    injection Hs as <-; rewrite channel_insert.
  - split.
    + by rewrite lookup_app_r, Nat.sub_diag by lia.
    + rewrite forallb_app, Hall. simpl. by rewrite Hxx.
  - split.
    + apply list_lookup_insert_eq. lia.
    + by apply forallb_insert.
Qed.

Lemma settled_other (w w' : workspace) c c' t t' x y :
  ws_set w c' t' y = Ok w' → c' ≠ c → settled w c t x → settled w' c t x.
Proof.
  intros Hs Hne. unfold settled, channel.
  by rewrite (ws_set_other _ _ _ _ _ _ Hs Hne).
Qed.

Lemma ws_set_settled (w : workspace) c t x :
  settled w c t x → ws_set w c t x = Ok w.
Proof.
  intros [Hx Hall]. unfold ws_set. rewrite Hall. simpl.
  apply lookup_lt_Some in Hx as Hlt.
  destruct (decide (length (channel w c) < t)); [lia|].
  destruct (decide (t = length (channel w c))); [lia|].
  f_equal. rewrite list_insert_id by done.
  unfold channel in *. destruct (w !! c) as [l|] eqn:Hc; simpl in *.
  - by apply insert_id.
  - done.
Qed.
End Idempotence.

Ltac settle :=
  repeat first
    [ eapply ws_set_settles; eassumption
    | eapply settled_other; [eassumption|done|] ].

Ltac rerun :=
  repeat (progress (
    repeat match goal with
    | Hf : ?b = _ |- context [if ?b then _ else _] => rewrite Hf; simpl
    end;
    ws_norm; use_results;
    repeat match goal with
    | |- context [ws_set ?w ?c ?t ?x] =>
        rewrite (ws_set_settled w c t x) by settle; simpl
    end)).

Section IdempotenceFacts.
Context `{Torch}.

(** X5.  A call that does not sample is idempotent: when a greedy call, or
    a re-scoring call of a class that takes [predict_proba], has returned,
    the same call on the state it left returns again and changes
    nothing. *)
Theorem call_without_sampling_is_idempotent
    (a : actor) (t : nat) (o : options) (s s' : state) :
  stochastic o = false ∨ (takes_predict_proba a && predict_proba o = true) →
  forward a t o s = (Ok tt, s') →
  forward a t o s' = (Ok tt, s').
Proof.
  intros Hmode Hrun. destruct s as [w g].
  destruct Hmode as [Hsto|[Ha Hp]%andb_true_iff].
  - destruct a; unfold_forward Hrun; unfold_forward_goal;
      rewrite ?Hsto in Hrun; rewrite ?Hsto; run_inv; simplify_eq/=;
      unfold bind, get, lift, ret, raise, when, set; simpl; rerun.
    all: try done.
  - destruct a; try discriminate Ha; unfold_forward Hrun;
      unfold_forward_goal;
      rewrite Hp in Hrun; rewrite Hp; run_inv; simplify_eq/=;
      unfold bind, get, lift, ret, raise, when, set; simpl; rerun.
    all: try done.
Qed.
End IdempotenceFacts.

Lemma call_without_sampling_is_idempotent_witness :
  forward (ADiscrete Example.discrete) 0 Cases.greedy_call
    (Cases.after (ADiscrete Example.discrete))
  = (Ok tt, Cases.after (ADiscrete Example.discrete)).
Proof.
  apply (call_without_sampling_is_idempotent (ADiscrete Example.discrete) 0
           Cases.greedy_call (Cases.start_state 0)
           (Cases.after (ADiscrete Example.discrete)));
    [left; reflexivity | apply run_result; vm_compute; reflexivity].
Defined.

(** ** [predict_action] against [forward] *)
Ltac unfold_predict :=
  unfold DiscreteActor_predict_action,
    TunableVarianceContinuousActor_predict_action,
    TunableVarianceContinuousActorExp_predict_action,
    StateDependentVarianceContinuousActor_predict_action,
    ConstantVarianceContinuousActor_predict_action,
    SquashedGaussianActor_predict_action, BernoulliActor.predict_action.

Section PredictFacts.
Context `{Torch}.

Lemma zip_with_pair_fst {A B} (l : list A) (k : list B) :
  length l = length k → (zip_with pair l k).*1 = l.
Proof.
  revert k. induction l as [|x l IH]; intros [|y k] Hlen; simpl in *;
    try done. f_equal. apply IH. lia.
Qed.

Lemma rmap_id_inv {A} (l : list (result A)) (v : list A) :
  rmap id l = Ok v → l = Ok <$> v.
Proof.
  revert v. induction l as [|[x|e] l IH]; intros v Hv; simpl in *.
  - by injection Hv as <-.
  - destruct (rmap id l) as [ys|e]; simpl in *; [|done].
    injection Hv as <-. simpl. f_equal. by apply IH.
  - done.
Qed.

(** The location of a distribution built from equally shaped tensors is
    the location it was given. *)
Lemma pair_up_fst (loc scale : list (list float)) d :
  pair_up loc scale = Ok d → map2d fst d = loc.
Proof.
  unfold pair_up, zip_exact. destruct (decide _) as [Hlen|]; [|done].
  simpl. intros Hd%rmap_id_inv. revert scale d Hlen Hd.
  induction loc as [|r loc IH]; intros [|v scale] [|x d] Hlen Hd;
    simpl in *; try done.
  injection Hd as Hx Hd. destruct (decide _) as [Hl|]; [|done].
  injection Hx as <-. unfold map2d in *. simpl. f_equal.
  - by apply zip_with_pair_fst.
  - apply (IH scale); [lia|done].
Qed.

Lemma Normal_fst (loc scale : list (list float)) d :
  Normal loc scale = Ok d → map2d fst d = loc.
Proof.
  unfold Normal. destruct (pair_up loc scale) as [d'|] eqn:Hp; [|done].
  simpl. destruct (normal_valid d'); [|done]. intros [= <-].
  by apply (pair_up_fst loc scale).
Qed.

Lemma draw_run {A} (f : generator → A * generator) (s : state) :
  draw f s = (Ok (f s.2).1, (s.1, (f s.2).2)).
Proof. unfold draw. by destruct (f s.2). Qed.

(** X6.  [predict_action(obs, stochastic)] returns the action that
    [forward(t, stochastic=...)] stores for the same observation and the
    same generator, and leaves the generator as [forward] leaves it.  This
    holds for the five Gaussian classes in both modes (for the
    state-dependent class provided the mean holds no NaN, on which only
    [predict_action] asserts) and for DiscreteActor when sampling. *)
Theorem predict_action_agrees_with_forward
    (a : actor) (f : list (list float) → bool → M tensor)
    (t : nat) (o : options) (s s' : state) (obs : list (list float)) :
  predict_action a = Some f →
  (∀ d, a ≠ ABernoulli d) →
  (∀ d, a = ADiscrete d → stochastic o = true ∧ observation o = None) →
  has_nan (asserted_mean a obs) = false →
  predict_proba o = false →
  ws_get s.1 "env/env_obs" t = Ok (TFloat2 obs) →
  forward a t o s = (Ok tt, s') →
  ∃ act, f obs (stochastic o) s = (Ok act, (s.1, s'.2)) ∧
         ws_get s'.1 "action" t = Ok act.
Proof.
  intros Hf Hbern Hdisc Hnan Hp Hobs Hrun. destruct s as [w g].
  simpl in Hobs.
  destruct a; simpl in Hf; try discriminate Hf; injection Hf as <-;
    try (by destruct (Hbern a));
    unfold_forward Hrun; rewrite Hp in Hrun;
    try (destruct (Hdisc _ eq_refl) as [Hsto Hnone]; rewrite Hnone in Hrun);
    clear Hdisc; run_inv;
    repeat match goal with
    | H : ws_get w "env/env_obs" t = Ok ?x |- _ =>
        is_var x; rewrite Hobs in H; injection H as <-
    end; simplify_eq/=;
    unfold TunableVarianceContinuousActorExp.get_distribution in *;
    repeat match goal with
    | H : rbind ?r _ = Ok _ |- _ => destruct r eqn:?; simpl in H; [|done]
    end;
    unfold_predict;
    repeat match goal with
    | H : stochastic o = _ |- _ => rewrite H
    end;
    unfold bind, lift, ret, raise; simpl; rewrite ?Hnan;
    use_results; rewrite ?draw_run; simpl;
    (eexists; split; [reflexivity|]); ws_norm.
  all: try done.
  all: by erewrite Normal_fst.
Qed.


(** X7.  In greedy mode [DiscreteActor.predict_action] reduces over the
    batch axis ([scores.argmax(0)]) where [forward] reduces over the action
    axis ([scores.argmax(1)]): for a batch of [B] observations and [n]
    actions it returns [n] indices, and raises on an empty batch, while
    [forward] stores [B] actions. *)
Theorem discrete_predict_action_reduces_batch
    (d : DiscreteActor.t) (t : nat) (o : options) (s s' : state)
    (obs : list (list float)) :
  stochastic o = false →
  predict_proba o = false →
  observation o = None →
  ws_get s.1 "env/env_obs" t = Ok (TFloat2 obs) →
  forward (ADiscrete d) t o s = (Ok tt, s') →
  let scores := DiscreteActor.model d obs in
  (∃ stored, ws_get s'.1 "action" t = Ok (TInt stored) ∧
             length stored = length scores) ∧
  match scores with
  | [] => DiscreteActor_predict_action d obs false s = (Err IndexError, s)
  | _ => ∃ idx, DiscreteActor_predict_action d obs false s
                  = (Ok (TInt idx), s) ∧
                length idx = width scores
  end.
Proof.
  intros Hsto Hp Hnone Hobs Hrun scores. destruct s as [w g].
  simpl in Hobs. split.
  - unfold_forward Hrun. rewrite Hp, Hsto, Hnone in Hrun. run_inv.
    all: rewrite Hobs in *; simplify_eq/=; ws_norm.
    all: eexists; split; [done|]; by rewrite length_fmap.
  - unfold DiscreteActor_predict_action, argmax0, bind, lift, ret.
    fold scores. destruct scores as [|row rest] eqn:Hs; [done|].
    eexists; split; [done|].
    unfold columns. by rewrite !length_fmap, length_seq.
Qed.



(** X9.  [ProbAgent] followed by [ActionAgent] (or by [ActorAgent], which
    has the same body) at the same time step: the
    action stored is computed from the probabilities [ProbAgent] derived
    from the observation, by argmax when greedy and by one draw from the
    generator when stochastic; a greedy selection leaves the generator
    alone. *)
Theorem prob_agent_then_action_agent
    (p : ProbAgent.t) (a : actor) (t : nat) (o o' : options)
    (s s1 s2 : state) (obs : list (list float)) :
  ws_get s.1 "env/env_obs" t = Ok (TFloat2 obs) →
  forward (AProbAgent p) t o s = (Ok tt, s1) →
  a = AActorAgent ∨ a = AActionAgent →
  forward a t o' s1 = (Ok tt, s2) →
  let probs := t_softmax <$> ProbAgent.model p obs in
  ws_get s2.1 "action_probs" t = Ok (TFloat2 probs) ∧
  if stochastic o'
  then ws_get s2.1 "action" t = Ok (TInt (categorical_sample s.2 probs).1) ∧
       s2.2 = (categorical_sample s.2 probs).2
  else ws_get s2.1 "action" t = Ok (TInt (t_argmax <$> probs)) ∧
       s2.2 = s.2.
Proof.
  intros Hobs Hrun1 Ha Hrun2 probs. destruct s as [w g]. simpl in Hobs.
  unfold_forward Hrun1.
  destruct Ha as [-> | ->]; unfold_forward Hrun2; run_inv.
  all: rewrite Hobs in *; simplify_eq/=.
  all: repeat match goal with
       | H : Categorical _ = Ok _ |- _ =>
           unfold Categorical in H; destruct (categorical_valid _) eqn:?;
           simplify_eq/=
       end.
  all: ws_norm.
  all: match goal with
       | Hs : ws_set _ "action_probs" _ _ = Ok ?w', Hg : ws_get ?w' _ _ = _
         |- _ => rewrite (ws_get_set _ _ _ _ _ Hs) in Hg
       end; by simplify_eq/=.
Qed.

(** X10.  [SquashedGaussianActor.test(obs, action)] is the log-probability
    [forward] records: after a call that returns, [test] applied to the
    observation and to the action held at [t] gives the tensor the call
    wrote, to [logprob_predict] when re-scoring and to [action_logprobs]
    otherwise. *)
Theorem squashed_test_agrees_with_forward
    (d : SquashedGaussianActor.t) (t : nat) (o : options) (s s' : state)
    (obs : list (list float)) :
  ws_get s.1 "env/env_obs" t = Ok (TFloat2 obs) →
  forward (ASquashed d) t o s = (Ok tt, s') →
  ∃ act lp,
    ws_get s'.1 "action" t = Ok (TFloat2 act) ∧
    SquashedGaussianActor_test d obs act = Ok lp ∧
    ws_get s'.1 (if predict_proba o then "logprob_predict"
                 else "action_logprobs") t = Ok (TFloat lp).
Proof.
  intros Hobs Hrun. destruct s as [w g]. simpl in Hobs.
  unfold_forward Hrun. run_inv.
  all: rewrite Hobs in *; simplify_eq/=.
  all: unfold SquashedGaussianActor_test.
  all: repeat match goal with
       | H : as_float2 ?x = Ok _ |- _ =>
           is_var x; destruct x; simplify_eq/=
       end.
  all: eexists _, _; split_and!; [| |by ws_norm]; ws_norm; use_results;
    done.
Qed.
End PredictFacts.

Lemma predict_action_agrees_with_forward_witness :
  ∃ act,
    ConstantVarianceContinuousActor_predict_action Example.constant
      Example.features (stochastic Cases.greedy_call) (Cases.start_state 0)
    = (Ok act, ((Cases.start_state 0).1,
                (Cases.after (AConstant Example.constant)).2)) ∧
    ws_get (Cases.after (AConstant Example.constant)).1 "action" 0 = Ok act.
Proof.
  apply (predict_action_agrees_with_forward
           (AConstant Example.constant)
           (ConstantVarianceContinuousActor_predict_action Example.constant)
           0 Cases.greedy_call (Cases.start_state 0)
           (Cases.after (AConstant Example.constant)) Example.features);
    [reflexivity | intros; discriminate | intros; discriminate
    | reflexivity | reflexivity | reflexivity
    | apply run_result; vm_compute; reflexivity].
Defined.

Lemma discrete_predict_action_reduces_batch_witness :
  let scores := DiscreteActor.model Example.discrete Example.features in
  (∃ stored,
     ws_get (Cases.after (ADiscrete Example.discrete)).1 "action" 0
       = Ok (TInt stored) ∧
     length stored = length scores) ∧
  match scores with
  | [] => DiscreteActor_predict_action Example.discrete Example.features
            false (Cases.start_state 0)
          = (Err IndexError, Cases.start_state 0)
  | _ => ∃ idx,
           DiscreteActor_predict_action Example.discrete Example.features
             false (Cases.start_state 0)
           = (Ok (TInt idx), Cases.start_state 0) ∧
           length idx = width scores
  end.
Proof.
  apply (discrete_predict_action_reduces_batch Example.discrete 0
           Cases.greedy_call (Cases.start_state 0)
           (Cases.after (ADiscrete Example.discrete)) Example.features);
    [reflexivity | reflexivity | reflexivity | reflexivity
    | apply run_result; vm_compute; reflexivity].
Defined.


Lemma prob_agent_then_action_agent_witness :
  let probs := t_softmax <$> ProbAgent.model Cases.prob Example.features in
  ws_get Cases.selected.1 "action_probs" 0 = Ok (TFloat2 probs) ∧
  if stochastic Cases.greedy_call
  then ws_get Cases.selected.1 "action" 0
       = Ok (TInt (categorical_sample (Cases.start_state 0).2 probs).1) ∧
       Cases.selected.2 = (categorical_sample (Cases.start_state 0).2 probs).2
  else ws_get Cases.selected.1 "action" 0 = Ok (TInt (t_argmax <$> probs)) ∧
       Cases.selected.2 = (Cases.start_state 0).2.
Proof.
  apply (prob_agent_then_action_agent Cases.prob AActionAgent 0
           Cases.greedy_call Cases.greedy_call (Cases.start_state 0)
           (Cases.after (AProbAgent Cases.prob)) Cases.selected
           Example.features);
    [reflexivity | apply run_result; vm_compute; reflexivity
    | right; reflexivity | apply run_result; vm_compute; reflexivity].
Defined.

Lemma squashed_test_agrees_with_forward_witness :
  ∃ act lp,
    ws_get (Cases.after (ASquashed Cases.squashed)).1 "action" 0
      = Ok (TFloat2 act) ∧
    SquashedGaussianActor_test Cases.squashed Example.features act = Ok lp ∧
    ws_get (Cases.after (ASquashed Cases.squashed)).1
      (if predict_proba Cases.greedy_call then "logprob_predict"
       else "action_logprobs") 0 = Ok (TFloat lp).
Proof.
  apply (squashed_test_agrees_with_forward Cases.squashed 0
           Cases.greedy_call (Cases.start_state 0)
           (Cases.after (ASquashed Cases.squashed)) Example.features);
    [reflexivity | apply run_result; vm_compute; reflexivity].
Defined.

(** ** Re-scoring with the constant-variance actor *)
Section ConstantVariance.
Context `{Torch}.

(** X11.  [ConstantVarianceContinuousActor.forward] sums the log-probability
    over the action dimension only when it stores an action: when a call
    at [t] stores an action and a second call at [t] re-scores it, the
    [action_logprobs] of the first call is the sum over the last axis of
    the [logprob_predict] of the second, which keeps one entry per action
    dimension. *)
Theorem constant_variance_rescoring_sums
    (d : ConstantVarianceContinuousActor.t) (t : nat) (o1 o2 : options)
    (s s1 s2 : state) :
  predict_proba o1 = false →
  predict_proba o2 = true →
  forward (AConstant d) t o1 s = (Ok tt, s1) →
  forward (AConstant d) t o2 s1 = (Ok tt, s2) →
  ∃ lp, ws_get s2.1 "logprob_predict" t = Ok (TFloat2 lp) ∧
        ws_get s1.1 "action_logprobs" t = Ok (TFloat (t_sum <$> lp)).
Proof.
  intros Hp1 Hp2 Hrun1 Hrun2.
  unfold_forward Hrun1. unfold_forward Hrun2.
  rewrite Hp1 in Hrun1. rewrite Hp2 in Hrun2. run_inv.
  all: ws_norm.
  all: repeat match goal with
       | Hs : ws_set _ "action" _ _ = Ok ?w', Hg : ws_get ?w' "action" _ = _
         |- _ => rewrite (ws_get_set _ _ _ _ _ Hs) in Hg
       | H1 : ws_get ?w ?c ?i = Ok ?x, H2 : ws_get ?w ?c ?i = Ok ?y |- _ =>
           rewrite H1 in H2
       end; simplify_eq/=.
  all: eexists; split; [done|congruence].
Qed.
End ConstantVariance.

Lemma constant_variance_rescoring_sums_witness :
  ∃ lp,
    ws_get Cases.rescored.1 "logprob_predict" 0 = Ok (TFloat2 lp) ∧
    ws_get (Cases.after (AConstant Example.constant)).1 "action_logprobs" 0
    = Ok (TFloat (t_sum <$> lp)).
Proof.
  apply (constant_variance_rescoring_sums Example.constant 0
           Cases.greedy_call (Example.call false true false)
           (Cases.start_state 0) (Cases.after (AConstant Example.constant))
           Cases.rescored);
    [reflexivity | reflexivity
    | apply run_result; vm_compute; reflexivity
    | apply run_result; vm_compute; reflexivity].
Defined.

(** ** The clipped objective and the value clipping of PPO *)
Section LossFacts.
Open Scope Q_scope.

Lemma Qsum_le (l k : list Q) : Forall2 Qle l k → Qsum l <= Qsum k.
Proof.
  induction 1 as [|x y l k Hxy _ IH]; simpl; [apply Qle_refl|].
  by apply Qplus_le_compat.
Qed.

Lemma Forall2_concat_rows {A B} (R : A → B → Prop) x y :
  Forall2 (Forall2 R) x y → Forall2 R (concat x) (concat y).
Proof.
  induction 1 as [|r r' x y Hr _ IH]; simpl; [constructor|].
  by apply Forall2_app.
Qed.

Lemma mean_le (x y : list (list Q)) :
  Forall2 (Forall2 Qle) x y → mean x <= mean y.
Proof.
  intros Hxy%Forall2_concat_rows. unfold mean.
  rewrite (Forall2_length _ _ _ Hxy). unfold Qdiv.
  apply Qmult_le_compat_r; [by apply Qsum_le|].
  apply Qinv_le_0_compat. change 0 with (inject_Z 0).
  rewrite <- Zle_Qle. lia.
Qed.



Lemma rect_same_rows {A B} n b (x : list (list A)) (y : list (list B)) :
  rect n b x → rect n b y → Forall2 (λ r r', length r = length r') x y.
Proof.
  intros [Hx Hxr] [Hy Hyr]. subst n. revert y Hy Hyr.
  induction Hxr as [|r x Hr _ IH]; intros [|r' y] Hy Hyr; simpl in *;
    try done; constructor.
  - inversion Hyr; subst. congruence.
  - inversion Hyr; subst. apply IH; [lia|done].
Qed.

Lemma clamp_le_hi (lo hi x : Q) : clamp lo hi x <= hi.
Proof.
  unfold clamp. destruct (Qle_bool (if Qle_bool lo x then x else lo) hi) eqn:E.
  - by apply Qle_bool_iff.
  - apply Qle_refl.
Qed.

Lemma clamp_ge_lo (lo hi x : Q) : lo <= hi → lo <= clamp lo hi x.
Proof.
  intros Hlh. unfold clamp. destruct (Qle_bool lo x) eqn:E1.
  - destruct (Qle_bool x hi); [by apply Qle_bool_iff|done].
  - destruct (Qle_bool lo hi) eqn:E2; [apply Qle_refl|done].
Qed.

Lemma clamp_inside (lo hi x : Q) : lo <= x → x <= hi → clamp lo hi x = x.
Proof.
  intros H1%Qle_bool_iff H2%Qle_bool_iff. unfold clamp. by rewrite H1, H2.
Qed.

Lemma minimum_le_l (a b : Q) : minimum a b <= a.
Proof.
  unfold minimum. destruct (Qle_bool a b) eqn:E; [apply Qle_refl|].
  destruct (Qlt_le_dec b a) as [Hlt|Hle]; [by apply Qlt_le_weak|].
  apply Qle_bool_iff in Hle. congruence.
Qed.


Lemma minimum_same (a : Q) : minimum a a = a.
Proof. unfold minimum. by destruct (Qle_bool a a). Qed.

(** The terms of the clipped objective, bounded entry by entry. *)
Lemma clipped_terms_le (c : Q) (g : Q → Q → Q) (PA : Q → Prop)
    (adv ratio : list (list Q)) :
  (∀ a r, PA a → minimum (a * r) (a * clamp (1 - c) (1 + c) r) <= g a r) →
  Forall (Forall PA) adv →
  Forall2 (λ r r', length r = length r') adv ratio →
  Forall2 (Forall2 Qle)
    (zip_with (zip_with minimum)
       (zip_with (zip_with Qmult) adv ratio)
       (zip_with (zip_with Qmult) adv
          (map (map (clamp (1 - c) (1 + c))) ratio)))
    (zip_with (zip_with g) adv ratio).
Proof.
  intros Hg Hadv Hshape. revert Hadv.
  induction Hshape as [|a r adv ratio Hlen _ IH]; intros Hadv; simpl;
    [constructor|].
  inversion Hadv as [|? ? Ha Hadv']; subst.
  constructor; [|by apply IH].
  clear IH Hadv Hadv'. revert r Hlen.
  induction Ha as [|x a Hx _ IHa]; intros [|y r] Hlen; simpl in *;
    try done; constructor; [by apply Hg|]. apply IHa. lia.
Qed.


Lemma zip_with_minimum_same (x : list (list Q)) :
  zip_with (zip_with minimum) x x = x.
Proof.
  induction x as [|r x IH]; simpl; [done|]. f_equal; [|done].
  clear IH. induction r as [|a r IHr]; simpl; [done|].
  by rewrite minimum_same, IHr.
Qed.






(** X12.  The clipped surrogate of PPO is pessimistic: for advantages and
    ratios of the same shape, [compute_actor_loss] never exceeds the
    unclipped objective [mean(advantages * ratio)], whatever the clip
    range. *)
Theorem ppo_actor_loss_at_most_unclipped
    (n b : nat) (advantages ratio : list (list Q)) (clip_range : Q) :
  rect n b advantages → rect n b ratio →
  PPO_compute_actor_loss advantages ratio clip_range
  <= mean (zip_with (zip_with Qmult) advantages ratio).
Proof.
  intros Ha Hr. unfold PPO_compute_actor_loss. apply mean_le.
  apply (clipped_terms_le clip_range Qmult (λ _, True)).
  - intros a r _. apply minimum_le_l.
  - apply Forall_true. intros row. by apply Forall_true.
  - by apply (rect_same_rows n b).
Qed.

(** X13.  Where every ratio lies within the clip range
    [[1 - clip_range, 1 + clip_range]], clipping has no effect:
    [compute_actor_loss] is the unclipped objective
    [mean(advantages * ratio)]. *)
Theorem ppo_actor_loss_inside_clip_range
    (advantages ratio : list (list Q)) (clip_range : Q) :
  Forall (Forall (λ r, 1 - clip_range <= r ∧ r <= 1 + clip_range)) ratio →
  PPO_compute_actor_loss advantages ratio clip_range
  = mean (zip_with (zip_with Qmult) advantages ratio).
Proof.
  intros Hin. unfold PPO_compute_actor_loss.
  assert (map (map (clamp (1 - clip_range) (1 + clip_range))) ratio = ratio)
    as ->.
  { induction Hin as [|r ratio Hr _ IH]; simpl; [done|]. f_equal; [|done].
    clear IH. induction Hr as [|x r [Hlo Hhi] _ IHr]; simpl; [done|].
    by rewrite clamp_inside, IHr. }
  by rewrite zip_with_minimum_same.
Qed.





(** X17.  The value clipping of [run_ppo] compares [v_value] with
    [old_v_value], which is read from the same transition workspace and is
    the same tensor: whenever the loss computation succeeds, the values
    passed to [compute_advantage_loss] are, entry by entry, the unclipped
    values, for every [clip_range_vf]. *)
Theorem ppo_value_clipping_changes_nothing
    (cfg : config) (v_value : pair_tensor Q)
    (done truncated : pair_tensor bool) (reward : pair_tensor Q)
    (out : Q * list (list Q)) :
  PPO.losses cfg v_value done truncated reward = Ok out →
  ∃ mb v,
    PPO.must_bootstrap done truncated = Ok mb ∧
    out = compute_advantage_loss cfg (rows reward) [mb] v ∧
    Forall2 (Forall2 Qeq) v (rows v_value).
Proof.
  unfold PPO.losses. intros Hout.
  destruct (PPO.must_bootstrap done truncated) as [mb|] eqn:Hmb; [|done].
  simpl in Hout. injection Hout as <-. eexists mb, _. split_and!; try done.
  destruct (Qle_bool (clip_range_vf cfg) 0) eqn:Hc.
  - assert (∀ l : list Q, Forall2 Qeq l l) as Hrefl.
    { induction l; constructor; [reflexivity|done]. }
    unfold rows. constructor; [apply Hrefl|].
    constructor; [apply Hrefl|constructor].
  - assert (0 <= clip_range_vf cfg) as Hc0.
    { destruct (Qlt_le_dec (clip_range_vf cfg) 0) as [Hlt|Hle]; [|done].
      apply Qlt_le_weak, Qle_bool_iff in Hlt. congruence. }
    unfold rows, PPO.clip_values. simpl.
    assert (∀ l : list Q,
      Forall2 Qeq
        (zip_with (λ old v, old + clamp (- clip_range_vf cfg)
                                    (clip_range_vf cfg) (v - old)) l l) l)
      as Hrow.
    { induction l as [|x l IH]; simpl; constructor; [|done].
      rewrite clamp_inside by lra. ring. }
    constructor; [apply Hrow|]. constructor; [apply Hrow|constructor].
Qed.

(** X18.  With a non-negative range, [clip_values] keeps every value within
    [clip_range_vf] of the old value, for tensors of the same shape. *)
Theorem clip_values_stays_near_old
    (n b : nat) (c : Q) (old_v_value v_value : list (list Q)) :
  0 <= c → rect n b old_v_value → rect n b v_value →
  Forall2 (Forall2 (λ old x, old - c <= x ∧ x <= old + c))
    old_v_value (PPO.clip_values c old_v_value v_value).
Proof.
  intros Hc Ho Hv. pose proof (rect_same_rows n b _ _ Ho Hv) as Hshape.
  clear Ho Hv. unfold PPO.clip_values.
  induction Hshape as [|o v old new Hlen _ IH]; simpl; constructor; [|done].
  clear IH. revert v Hlen.
  induction o as [|x o IHo]; intros [|y v] Hlen; simpl in *; try done;
    constructor; [|apply IHo; lia].
  pose proof (clamp_le_hi (- c) c (y - x)).
  assert (- c <= c) as Hcc by lra.
  pose proof (clamp_ge_lo (- c) c (y - x) Hcc). lra.
Qed.
End LossFacts.

Lemma ppo_actor_loss_at_most_unclipped_witness :
  (PPO_compute_actor_loss Cases.mixed Cases.ratio Cases.clip_range
   <= mean (zip_with (zip_with Qmult) Cases.mixed Cases.ratio))%Q.
Proof.
  apply (ppo_actor_loss_at_most_unclipped 1 2 Cases.mixed Cases.ratio
           Cases.clip_range);
    (split; [reflexivity | repeat constructor]).
Defined.

Lemma ppo_actor_loss_inside_clip_range_witness :
  PPO_compute_actor_loss Cases.mixed Cases.ratio_near_one Cases.clip_range
  = mean (zip_with (zip_with Qmult) Cases.mixed Cases.ratio_near_one).
Proof.
  apply (ppo_actor_loss_inside_clip_range Cases.mixed Cases.ratio_near_one
           Cases.clip_range).
  repeat constructor; vm_compute; discriminate.
Defined.



Lemma ppo_value_clipping_changes_nothing_witness :
  ∃ mb v,
    PPO.must_bootstrap Cases.done Cases.truncated = Ok mb ∧
    compute_advantage_loss Cases.clipping (rows Cases.reward)
      [[false; true]]
      (PPO.clip_values (clip_range_vf Cases.clipping) (rows Cases.v_value)
         (rows Cases.v_value))
    = compute_advantage_loss Cases.clipping (rows Cases.reward) [mb] v ∧
    Forall2 (Forall2 Qeq) v (rows Cases.v_value).
Proof.
  apply (ppo_value_clipping_changes_nothing Cases.clipping Cases.v_value
           Cases.done Cases.truncated Cases.reward).
  reflexivity.
Defined.

Lemma clip_values_stays_near_old_witness :
  Forall2 (Forall2 (λ old x, old - Cases.clip_range <= x ∧
                             x <= old + Cases.clip_range)%Q)
    (rows Cases.v_value)
    (PPO.clip_values Cases.clip_range (rows Cases.v_value)
       (rows Cases.reward)).
Proof.
  apply (clip_values_stays_near_old 2 2 Cases.clip_range
           (rows Cases.v_value) (rows Cases.reward));
    [vm_compute; discriminate
    | split; [reflexivity | repeat constructor]
    | split; [reflexivity | repeat constructor]].
Defined.

(** ** The advantage the loops compute *)
Section TransitionAdvantage.
Open Scope Q_scope.

(** X19.  [run_a2c] and [run_ppo] compute their advantages on the
    transition view, whose time axis has two entries: the estimator sees a
    single step, so the advantage of a transition is its one-step residual
    [r + γ·V'·must_bootstrap − V] and the critic loss the mean of its
    square, whatever [cfg.algorithm.gae] is. *)
Theorem gae_coefficient_is_unused
    (cfg : config) (lam : Q) (v_value : pair_tensor Q)
    (done truncated : pair_tensor bool) (reward : pair_tensor Q) :
  let cfg' := {| discount_factor := discount_factor cfg; gae_coef := lam;
                 clip_range_vf := clip_range_vf cfg |} in
  A2C.losses cfg v_value done truncated reward
  = rbind (A2C.must_bootstrap done truncated) (λ mb,
      let advantages :=
        [td_row (discount_factor cfg) reward.1 v_value.2 mb v_value.1] in
      Ok (mean (map (map (λ a, a ^ 2)) advantages), advantages)) ∧
  A2C.losses cfg' v_value done truncated reward
  = A2C.losses cfg v_value done truncated reward ∧
  PPO.losses cfg' v_value done truncated reward
  = PPO.losses cfg v_value done truncated reward.
Proof.
  unfold A2C.losses, PPO.losses. split_and!.
  - by destruct (A2C.must_bootstrap done truncated).
  - by destruct (A2C.must_bootstrap done truncated).
  - destruct (PPO.must_bootstrap done truncated); [|done]. simpl.
    by destruct (Qle_bool (clip_range_vf cfg) 0).
Qed.
End TransitionAdvantage.


(** ** The counters of the training loops *)
Section LoopFacts.
Variables (eval_interval : Z) (save_best : bool).

Lemma training_loop_snoc (epochs : list (Z * Q)) (e : Z * Q) :
  training_loop eval_interval save_best (epochs ++ [e])
  = end_of_epoch eval_interval save_best
      (training_loop eval_interval save_best epochs) e.
Proof. unfold training_loop. by rewrite fold_left_app. Qed.

Lemma last_cons_default {A} (l : list A) (a d d' : A) :
  List.last (a :: l) d = List.last (a :: l) d'.
Proof.
  revert a. induction l as [|b l IH]; intros a; [done|].
  change (List.last (b :: l) d = List.last (b :: l) d'). apply IH.
Qed.

Lemma lookup_last_cons {A} (l : list A) (z : A) :
  (z :: l) !! length l = Some (List.last l z).
Proof.
  revert z. induction l as [|a l IH]; intros z; [done|].
  change ((a :: l) !! length l = Some (List.last (a :: l) z)).
  rewrite IH. f_equal. destruct l as [|b l]; [done|].
  change (List.last (b :: l) a = List.last (b :: l) z).
  apply last_cons_default.
Qed.

(** Appending an element that exceeds the last one keeps a sequence
    increasing from its start value. *)
Lemma increasing_snoc {A} (R : A → A → Prop) (z : A) (l : list A) (a : A) :
  (∀ i x y, (z :: l) !! i = Some x → l !! i = Some y → R x y) →
  R (List.last l z) a →
  ∀ i x y, (z :: l ++ [a]) !! i = Some x → (l ++ [a]) !! i = Some y →
           R x y.
Proof.
  intros Hl Ha i x y Hx Hy. rewrite app_comm_cons in Hx.
  destruct (decide (i < length l)) as [Hi|Hi].
  - rewrite lookup_app_l in Hy by done.
    rewrite (lookup_app_l (z :: _)) in Hx by (simpl; lia). eauto.
  - apply lookup_lt_Some in Hy as Hlt.
    rewrite length_app in Hlt. simpl in Hlt.
    assert (i = length l) as -> by lia.
    rewrite lookup_app_r in Hy by lia.
    rewrite Nat.sub_diag in Hy. injection Hy as <-.
    rewrite (lookup_app_l (z :: _)) in Hx by (simpl; lia).
    rewrite lookup_last_cons in Hx. by injection Hx as <-.
Qed.

(** X20.  After any number of epochs, none of which removes steps:
    [nb_steps] is the total of the steps gathered; [tmp_steps] is the step
    count of the last evaluation (0 before the first) and never exceeds
    [nb_steps]; every evaluation came more than [eval_interval] steps after
    the one before it; and the steps gathered since the last evaluation
    never exceed [eval_interval] (or 0, if that is negative) once the epoch
    is over. *)
Theorem evaluations_are_spaced (epochs : list (Z * Q)) :
  Forall (λ e, 0 ≤ e.1)%Z epochs →
  let p := training_loop eval_interval save_best epochs in
  let evaluated_at := (logged p).*1 in
  nb_steps p = foldr Z.add 0%Z epochs.*1 ∧
  tmp_steps p = List.last evaluated_at 0%Z ∧
  (0 ≤ tmp_steps p ≤ nb_steps p)%Z ∧
  (∀ i x y, (0%Z :: evaluated_at) !! i = Some x →
            evaluated_at !! i = Some y → (eval_interval < y - x)%Z) ∧
  (nb_steps p - tmp_steps p ≤ Z.max 0 eval_interval)%Z.
Proof.
  induction epochs as [|[n mean] epochs IH] using rev_ind; intros Hpos p.
  - subst p. simpl. split_and!; try done; lia.
  - apply Forall_app in Hpos as [Hpos Hn].
    rewrite Forall_singleton in Hn. simpl in Hn.
    specialize (IH Hpos). simpl in IH.
    destruct IH as (Hnb & Htmp & Hle & Hsp & Hint).
    subst p. rewrite training_loop_snoc.
    set (q := training_loop eval_interval save_best epochs) in *.
    assert (foldr Z.add 0%Z (epochs ++ [(n, mean)]).*1
            = (foldr Z.add 0 epochs.*1 + n)%Z) as ->.
    { rewrite fmap_app, foldr_app. simpl.
      generalize (epochs.*1). intros l. induction l; simpl; lia. }
    unfold end_of_epoch.
    destruct (eval_interval <? nb_steps q + n - tmp_steps q)%Z eqn:Hev.
    + apply Z.ltb_lt in Hev.
      assert (∀ best sv,
        let p := {| nb_steps := nb_steps q + n; tmp_steps := nb_steps q + n;
                    best_reward := best;
                    logged := logged q ++ [((nb_steps q + n)%Z, mean)];
                    saved := sv |} in
        nb_steps p = (foldr Z.add 0 epochs.*1 + n)%Z ∧
        tmp_steps p = List.last (logged p).*1 0%Z ∧
        (0 ≤ tmp_steps p ≤ nb_steps p)%Z ∧
        (∀ i x y, (0%Z :: (logged p).*1) !! i = Some x →
                  (logged p).*1 !! i = Some y →
                  (eval_interval < y - x)%Z) ∧
        (nb_steps p - tmp_steps p ≤ Z.max 0 eval_interval)%Z)
        as Hcase.
      { intros best sv. simpl. rewrite fmap_app. simpl.
        split_and!; try lia.
        - by rewrite last_last.
        - apply increasing_snoc; [done|]. rewrite <- Htmp. lia. }
      destruct (save_best && negb (Qle_bool mean (best_reward q)));
        apply Hcase.
    + apply Z.ltb_ge in Hev. simpl. split_and!; try done; lia.
Qed.

(** X21.  [best_reward] is the running maximum of the evaluations: without
    [save_best] nothing is ever saved and [best_reward] stays at its
    initial value; with it, [best_reward] is at least every mean reward
    logged so far and is either the initial value or one of them; and in
    both cases the models saved have strictly increasing mean rewards, all
    above the initial value, the last of which is [best_reward]. *)
Theorem best_reward_is_running_maximum (epochs : list (Z * Q)) :
  let p := training_loop eval_interval save_best epochs in
  (if save_best
   then Forall (λ m, m <= best_reward p)%Q (logged p).*2 ∧
        (best_reward p = initial_best_reward ∨
         best_reward p ∈ (logged p).*2)
   else saved p = [] ∧ best_reward p = initial_best_reward) ∧
  best_reward p = List.last (saved p) initial_best_reward ∧
  (∀ i x y, (initial_best_reward :: saved p) !! i = Some x →
            saved p !! i = Some y → (x < y)%Q).
Proof.
  induction epochs as [|[n mean] epochs IH] using rev_ind; intros p.
  - subst p. simpl. split_and!; try done.
    destruct save_best; [|done]. split; [constructor|by left].
  - simpl in IH. destruct IH as (Hmode & Hlast & Hinc).
    subst p. rewrite training_loop_snoc.
    set (q := training_loop eval_interval save_best epochs) in *.
    unfold end_of_epoch.
    destruct (eval_interval <? nb_steps q + n - tmp_steps q)%Z; [|done].
    destruct save_best eqn:Hsb; simpl; [|done].
    destruct Hmode as [Hall Hmem].
    destruct (Qle_bool mean (best_reward q)) eqn:Hcmp; simpl.
    + apply Qle_bool_iff in Hcmp. split_and!; try done.
      * rewrite fmap_app. apply Forall_app. split; [done|].
        by apply Forall_singleton.
      * destruct Hmem as [?|Hmem]; [by left|right].
        rewrite fmap_app. apply elem_of_app. by left.
    + assert (best_reward q < mean)%Q as Hlt.
      { destruct (Qlt_le_dec (best_reward q) mean) as [|Hle]; [done|].
        apply Qle_bool_iff in Hle. congruence. }
      split_and!.
      * rewrite fmap_app. apply Forall_app. split.
        -- eapply Forall_impl; [apply Hall|]. intros m Hm. simpl in *.
           eapply Qle_trans; [apply Hm|]. by apply Qlt_le_weak.
        -- apply Forall_singleton. apply Qle_refl.
      * right. rewrite fmap_app. apply elem_of_app. right. simpl.
        apply list_elem_of_here.
      * by rewrite last_last.
      * apply increasing_snoc; [done|]. by rewrite <- Hlast.
Qed.
End LoopFacts.

Lemma evaluations_are_spaced_witness :
  let p := training_loop 20 true Cases.epochs in
  let evaluated_at := (logged p).*1 in
  nb_steps p = foldr Z.add 0%Z Cases.epochs.*1 ∧
  tmp_steps p = List.last evaluated_at 0%Z ∧
  (0 ≤ tmp_steps p ≤ nb_steps p)%Z ∧
  (∀ i x y, (0%Z :: evaluated_at) !! i = Some x →
            evaluated_at !! i = Some y → (20 < y - x)%Z) ∧
  (nb_steps p - tmp_steps p ≤ Z.max 0 20)%Z.
Proof.
  apply (evaluations_are_spaced 20 true Cases.epochs).
  repeat constructor; vm_compute; discriminate.
Defined.
